(** * Thunk adjustments (clang/Basic/ABI.h) and the multiversion resolver

    A shallow embedding of the value types of [include/clang/Basic/ABI.h]
    ([ReturnAdjustment], [ThisAdjustment], [ThunkInfo]) together with the
    adjustment calculator and the multiversion resolver builder that the
    test fixtures exercise.

    Conventions.
    - [int64_t], [uint32_t] and [int32_t] members are integers of [Z]; the
      header only compares them, so no wrap-around arises in it.
    - A pointer into the declaration graph ([const CXXRecordDecl*],
      [const CXXMethodDecl*]) is its address, a [Z]; [NULL] is [0].
    - A union is its raw storage, a vector of [sizeof] bytes, because the
      header compares unions with [memcmp] and clears them with [memset]. *)

From Stdlib Require Import ZArith Lia Bool.
From Stdlib Require Import Init.Byte Strings.Byte.
From stdpp Require Import base numbers list vector strings.

Local Open Scope Z_scope.

(** ** Bytes and the C library routines the header calls *)

(** The value of a byte read as [unsigned char]. *)
Definition uchar (b : byte) : Z := Z.of_N (Byte.to_N b).

Definition ptr : Type := Z.
Definition NULL : ptr := 0.

(** [memcmp] over two buffers of the same size: the difference of the
    first pair of bytes that differ, read as [unsigned char], and [0] when
    there is none.  Only the sign of the result is specified by C, and only
    the sign is used by the header. *)
Fixpoint memcmp_bytes (s1 s2 : list byte) : Z :=
  match s1, s2 with
  | c1 :: r1, c2 :: r2 =>
      if uchar c1 =? uchar c2 then memcmp_bytes r1 r2 else uchar c1 - uchar c2
  | _, _ => 0
  end.

Definition memcmp {n : nat} (s1 s2 : vec byte n) : Z :=
  memcmp_bytes (vec_to_list s1) (vec_to_list s2).

(** [memset(this, 0, sizeof( *this))]. *)
Definition memset_zero (n : nat) : vec byte n := vreplicate n x00.

(** Storing an integer member: [n] bytes, least significant first (the
    hosts of the test fixtures are little-endian); a negative value is
    stored in two's complement. *)
Definition byte_of_Z (v : Z) : byte :=
  default x00 (Byte.of_N (Z.to_N (v mod 256))).

Fixpoint le_bytes (n : nat) (v : Z) : vec byte n :=
  match n with
  | O => [#]
  | S k => byte_of_Z v ::: le_bytes k (v / 256)
  end.

(** The byte-wise (lexicographic, unsigned) order the specification names:
    the buffers agree before some index, and differ there with the smaller
    byte on the left. *)
Definition bytewise_lt (s1 s2 : list byte) : Prop :=
  ∃ (i : nat) (c1 c2 : byte),
    s1 !! i = Some c1 ∧ s2 !! i = Some c2 ∧ uchar c1 < uchar c2 ∧
    take i s1 = take i s2.

(** ** Strict weak orders, as [std::sort] and ordered containers need them *)

Definition incomparable {A : Type} (lt : A → A → bool) (x y : A) : Prop :=
  lt x y = false ∧ lt y x = false.

Record StrictWeakOrder {A : Type} (lt : A → A → bool) : Prop := {
  swo_irreflexive : ∀ x, lt x x = false;
  swo_transitive : ∀ x y z, lt x y = true → lt y z = true → lt x z = true;
  swo_incomparable_transitive :
    ∀ x y z, incomparable lt x y → incomparable lt y z → incomparable lt x z
}.

(** ** struct ReturnAdjustment *)

Module ReturnAdjustment.

(** [union VirtualAdjustment]: an [int64_t] (Itanium) overlapping two
    [uint32_t] (Microsoft): 8 bytes. *)
Module VirtualAdjustment.
Definition size : nat := 8.
Definition t : Type := vec byte size.

Definition ctor : t := memset_zero size.

Definition Equals (this Other : t) : bool := memcmp this Other =? 0.

Definition isEmpty (this : t) : bool :=
  let Zero := ctor in Equals this Zero.

Definition Less (this RHS : t) : bool := memcmp this RHS <? 0.

(** The storage once the member of the Itanium shape is assigned. *)
Definition Itanium (VBaseOffsetOffset : Z) : t :=
  le_bytes 8 VBaseOffsetOffset.

(** The storage once both members of the Microsoft shape are assigned. *)
Definition Microsoft (VBPtrOffset VBIndex : Z) : t :=
  vapp (le_bytes 4 VBPtrOffset) (le_bytes 4 VBIndex).
End VirtualAdjustment.

Record t : Type := {
  NonVirtual : Z;
  Virtual : VirtualAdjustment.t;
  AdjustmentTarget : ptr;
  AdjustmentSource : ptr
}.

Definition ctor (byteAddressable : bool) (t s : ptr) :=
  {| NonVirtual := 0;
     Virtual := VirtualAdjustment.ctor;
     AdjustmentTarget := if byteAddressable then NULL else t;
     AdjustmentSource := if byteAddressable then NULL else s |}.

Definition isEmpty (this : t) : bool :=
  (NonVirtual this =? 0) && VirtualAdjustment.isEmpty (Virtual this).

Definition eq (LHS RHS : t) : bool :=
  (NonVirtual LHS =? NonVirtual RHS) &&
  VirtualAdjustment.Equals (Virtual LHS) (Virtual RHS) &&
  (AdjustmentSource LHS =? AdjustmentSource RHS) &&
  (AdjustmentTarget LHS =? AdjustmentTarget RHS).

Definition ne (LHS RHS : t) : bool := negb (eq LHS RHS).

Definition lt (LHS RHS : t) : bool :=
  if NonVirtual LHS <? NonVirtual RHS then true
  else (NonVirtual LHS =? NonVirtual RHS) &&
       VirtualAdjustment.Less (Virtual LHS) (Virtual RHS).

End ReturnAdjustment.

(** ** struct ThisAdjustment *)

(** Modelled from the spec: [CXXBasePath] is declared in
    [clang/AST/CXXInheritance.h], which is not part of the sources at hand;
    the specification describes the member as "the full class path
    traversed", so a path is the list of the classes it goes through. *)
Definition CXXBasePath : Type := list ptr.

Module ThisAdjustment.

(** [union VirtualAdjustment]: an [int64_t] followed by a pointer
    (Itanium) overlapping three [int32_t] (Microsoft): 16 bytes on an
    LP64 host, the last 4 of them unused by the Microsoft shape. *)
Module VirtualAdjustment.
Definition size : nat := 16.
Definition t : Type := vec byte size.

Definition ctor : t := memset_zero size.

Definition Equals (this Other : t) : bool := memcmp this Other =? 0.

Definition isEmpty (this : t) : bool :=
  let Zero := ctor in Equals this Zero.

Definition Less (this RHS : t) : bool := memcmp this RHS <? 0.

Definition Itanium (VCallOffsetOffset : Z) (VirtualBase : ptr) : t :=
  vapp (le_bytes 8 VCallOffsetOffset) (le_bytes 8 VirtualBase).

Definition Microsoft (VtordispOffset VBPtrOffset VBOffsetOffset : Z) : t :=
  vapp (le_bytes 4 VtordispOffset)
    (vapp (le_bytes 4 VBPtrOffset)
       (vapp (le_bytes 4 VBOffsetOffset) (memset_zero 4))).
End VirtualAdjustment.

Record t : Type := {
  NonVirtual : Z;
  Virtual : VirtualAdjustment.t;
  AdjustmentTarget : ptr;
  AdjustmentSource : ptr;
  AdjustmentPath : CXXBasePath
}.

Definition ctor (t s : ptr) :=
  {| NonVirtual := 0;
     Virtual := VirtualAdjustment.ctor;
     AdjustmentTarget := t;
     AdjustmentSource := s;
     AdjustmentPath := [] |}.

Definition isEmpty (this : t) : bool :=
  (NonVirtual this =? 0) && VirtualAdjustment.isEmpty (Virtual this).

Definition eq (LHS RHS : t) : bool :=
  (NonVirtual LHS =? NonVirtual RHS) &&
  VirtualAdjustment.Equals (Virtual LHS) (Virtual RHS).

Definition ne (LHS RHS : t) : bool := negb (eq LHS RHS).

Definition lt (LHS RHS : t) : bool :=
  if NonVirtual LHS <? NonVirtual RHS then true
  else (NonVirtual LHS =? NonVirtual RHS) &&
       VirtualAdjustment.Less (Virtual LHS) (Virtual RHS).

End ThisAdjustment.

(** ** struct ThunkInfo *)

Module ThunkInfo.

Record t : Type := {
  This : ThisAdjustment.t;
  Return : ReturnAdjustment.t;
  Method : ptr;
  isMemberPointerThunk : bool
}.

(** [ThunkInfo()] *)
Definition ctor : t :=
  {| This := ThisAdjustment.ctor NULL NULL;
     Return := ReturnAdjustment.ctor false 0 0;
     Method := NULL;
     isMemberPointerThunk := false |}.

(** [ThunkInfo(This, Return, Method)] *)
Definition ctor3 (This : ThisAdjustment.t) (Return : ReturnAdjustment.t)
    (Method : ptr) : t :=
  {| This := This; Return := Return; Method := Method;
     isMemberPointerThunk := false |}.

Definition eq (LHS RHS : t) : bool :=
  ThisAdjustment.eq (This LHS) (This RHS) &&
  ReturnAdjustment.eq (Return LHS) (Return RHS) &&
  (Method LHS =? Method RHS).

Definition isEmpty (this : t) : bool :=
  ThisAdjustment.isEmpty (This this) &&
  ReturnAdjustment.isEmpty (Return this) &&
  (Method this =? NULL).

End ThunkInfo.


(** ** Adjustment calculator *)

Module Calculator.

(** Modelled from the spec: the inheritance path model and the adjustment
    calculator ([compute_this_adjustment], [compute_return_adjustment],
    [needs_thunk]) live in the vtable layout code, of which only test
    fixtures are at hand.  The definitions below follow sections 3, 4.2 and
    4.3 of the specification: a path is a sequence of hierarchy steps, each
    tagged virtual or not and carrying the layout-fixed offset of the base
    sub-object; the walk accumulates the offsets of the non-virtual steps
    until a virtual step fixes the prefix; a path with more than one
    virtual step is rejected.  The running offset is the [int64_t] that
    [NonVirtual] stores, so every addition is reduced to 64 bits, two's
    complement. *)
Definition int64_range (z : Z) : Prop := - 2 ^ 63 ≤ z < 2 ^ 63.

Definition wrap64 (z : Z) : Z := (z + 2 ^ 63) mod 2 ^ 64 - 2 ^ 63.

Record PathStep : Type := {
  step_from : ptr;
  step_to : ptr;
  step_virtual : bool;
  step_offset : Z
}.

Definition ClassPath : Type := list PathStep.

(** Modelled from the spec: the ABI strategy interface of section 4.4,
    with the target capability flag of section 9 consulted when a return
    adjustment is built. *)
Record ABIStrategy : Type := {
  byte_addressable : bool;
  encode_virtual_return : ClassPath → ReturnAdjustment.VirtualAdjustment.t;
  encode_virtual_this : ClassPath → ThisAdjustment.VirtualAdjustment.t
}.

(** Modelled from the spec: strategy A stores a signed offset relative to
    the address point; the offset itself comes from the layout engine. *)
Definition offset_table_strategy (byteAddressable : bool)
    (vbase_offset_offset vcall_offset_offset : ClassPath → Z)
    (virtual_base : ClassPath → ptr) : ABIStrategy :=
  {| byte_addressable := byteAddressable;
     encode_virtual_return := λ path,
       ReturnAdjustment.VirtualAdjustment.Itanium (vbase_offset_offset path);
     encode_virtual_this := λ path,
       ThisAdjustment.VirtualAdjustment.Itanium
         (vcall_offset_offset path) (virtual_base path) |}.

(** Modelled from the spec: strategy B stores the vbptr offset, the index
    into the virtual-base table and, for this-adjustments, a vtordisp
    offset. *)
Definition vbtable_strategy (byteAddressable : bool)
    (vbptr_offset vb_index vtordisp_offset vb_offset_offset : ClassPath → Z)
    : ABIStrategy :=
  {| byte_addressable := byteAddressable;
     encode_virtual_return := λ path,
       ReturnAdjustment.VirtualAdjustment.Microsoft
         (vbptr_offset path) (vb_index path);
     encode_virtual_this := λ path,
       ThisAdjustment.VirtualAdjustment.Microsoft
         (vtordisp_offset path) (vbptr_offset path) (vb_offset_offset path) |}.

(** The state of the walk: the running non-virtual offset and the number
    of virtual steps crossed so far. *)
Definition walk_step (st : Z * nat) (s : PathStep) : Z * nat :=
  let '(offset, crossings) := st in
  if step_virtual s then (offset, S crossings)
  else match crossings with
       | O => (wrap64 (offset + step_offset s), crossings)
       | S _ => (offset, crossings)
       end.

Definition walk (path : ClassPath) : Z * nat :=
  fold_left walk_step path (0, O).

Definition path_source (path : ClassPath) : ptr :=
  match path with
  | [] => NULL
  | s :: _ => step_from s
  end.

Definition path_target (path : ClassPath) : ptr :=
  match last path with
  | None => NULL
  | Some s => step_to s
  end.

Definition path_classes (path : ClassPath) : CXXBasePath :=
  match path with
  | [] => []
  | s :: _ => step_from s :: map step_to path
  end.

Definition compute_this_adjustment (path : ClassPath) (abi : ABIStrategy)
    : option ThisAdjustment.t :=
  let '(offset, crossings) := walk path in
  let base := ThisAdjustment.ctor (path_target path) (path_source path) in
  let adj virt :=
    {| ThisAdjustment.NonVirtual := offset;
       ThisAdjustment.Virtual := virt;
       ThisAdjustment.AdjustmentTarget := ThisAdjustment.AdjustmentTarget base;
       ThisAdjustment.AdjustmentSource := ThisAdjustment.AdjustmentSource base;
       ThisAdjustment.AdjustmentPath := path_classes path |} in
  match crossings with
  | O => Some (adj (ThisAdjustment.Virtual base))
  | S O => Some (adj (encode_virtual_this abi path))
  | S (S _) => None
  end.

Definition compute_return_adjustment (path : ClassPath) (abi : ABIStrategy)
    : option ReturnAdjustment.t :=
  let '(offset, crossings) := walk path in
  let base :=
    ReturnAdjustment.ctor (byte_addressable abi)
      (path_target path) (path_source path) in
  let adj virt :=
    {| ReturnAdjustment.NonVirtual := offset;
       ReturnAdjustment.Virtual := virt;
       ReturnAdjustment.AdjustmentTarget :=
         ReturnAdjustment.AdjustmentTarget base;
       ReturnAdjustment.AdjustmentSource :=
         ReturnAdjustment.AdjustmentSource base |} in
  match crossings with
  | O => Some (adj (ReturnAdjustment.Virtual base))
  | S O => Some (adj (encode_virtual_return abi path))
  | S (S _) => None
  end.

(** The sum of the fixed sub-object offsets along a path, as an integer
    without bound. *)
Definition path_offset_sum (path : ClassPath) : Z :=
  foldr Z.add 0 (map step_offset path).

Definition crosses_virtual_base (path : ClassPath) : bool :=
  existsb step_virtual path.

(** Modelled from the spec: the decision rule of the thunk synthesizer, a
    thunk is needed unless both adjustments are empty and no disambiguator
    is recorded. *)
Definition build_thunk (this : ThisAdjustment.t) (ret : ReturnAdjustment.t)
    (disambiguator : ptr) : ThunkInfo.t :=
  ThunkInfo.ctor3 this ret disambiguator.

Definition needs_thunk (this : ThisAdjustment.t) (ret : ReturnAdjustment.t)
    (disambiguator : ptr) : bool :=
  negb (ThunkInfo.isEmpty (build_thunk this ret disambiguator)).

End Calculator.

(** ** Multiversion resolver builder *)

Module Resolver.

(** Modelled from the spec: the resolver builder belongs to code
    generation, of which only the expected output
    ([test/CodeGenCXX/attr-target-mv-member-funcs.cpp]) is at hand.  The
    definitions follow sections 2, 4.5, 6 and 7 of the specification: the
    input is the list of (predicate, implementation) pairs of one logical
    function and the feature-priority table of the target; the list must
    hold exactly one fallback and no predicate twice; the descriptor is the
    sequence of run-time checks, most specific first by the table, ending
    in the fallback; candidates of equal priority stay in the order in
    which they were given; a call selects once and keeps the selection. *)
Inductive FeaturePredicate : Type :=
  | pred_default
  | pred_arch (cpu : string)
  | pred_feature (name : string).

#[global] Instance FeaturePredicate_eq_dec : EqDecision FeaturePredicate.
Proof. solve_decision. Defined.

(** A candidate: its predicate and the symbol of its body. *)
Definition Candidate : Type := FeaturePredicate * string.

Inductive BuildError : Type :=
  | NoFallback
  | SeveralFallbacks
  | DuplicatePredicate.

Record ResolverDescriptor : Type := {
  checks : list Candidate;
  fallback : string
}.

Definition is_default (c : Candidate) : bool :=
  bool_decide (c.1 = pred_default).

Fixpoint has_duplicate (ps : list FeaturePredicate) : bool :=
  match ps with
  | [] => false
  | p :: rest => bool_decide (p ∈ rest) || has_duplicate rest
  end.

(** The feature-priority table of the target: a larger number is a more
    specific requirement. *)
Definition PriorityTable : Type := FeaturePredicate → nat.

(** Insertion into a list ordered most specific first; the candidate goes
    before the first one that is not more specific than it is, so that it
    stays ahead of the equally specific candidates given after it. *)
Fixpoint insert_by_priority (priority : PriorityTable) (c : Candidate)
    (ordered : list Candidate) : list Candidate :=
  match ordered with
  | [] => [c]
  | c' :: rest =>
      if (priority c'.1 <=? priority c.1)%nat then c :: c' :: rest
      else c' :: insert_by_priority priority c rest
  end.

(** A list of checks is ordered most specific first when no candidate is
    followed by a more specific one. *)
Fixpoint most_specific_first (priority : PriorityTable)
    (cs : list Candidate) : Prop :=
  match cs with
  | [] => True
  | c :: rest =>
      Forall (λ c', (priority c'.1 ≤ priority c.1)%nat) rest ∧
      most_specific_first priority rest
  end.

Definition order_by_priority (priority : PriorityTable)
    (cs : list Candidate) : list Candidate :=
  foldr (insert_by_priority priority) [] cs.

Definition build_resolver (priority : PriorityTable)
    (candidates : list Candidate) : BuildError + ResolverDescriptor :=
  match List.filter is_default candidates with
  | [] => inl NoFallback
  | [(_, body)] =>
      if has_duplicate (map fst candidates) then inl DuplicatePredicate
      else inr {| checks :=
                    order_by_priority priority
                      (List.filter (λ c, negb (is_default c)) candidates);
                  fallback := body |}
  | _ :: _ :: _ => inl SeveralFallbacks
  end.

(** A run-time check against the features the running processor reports. *)
Definition satisfied (p : FeaturePredicate) (detected : list string) : bool :=
  match p with
  | pred_default => true
  | pred_arch cpu => bool_decide (cpu ∈ detected)
  | pred_feature name => bool_decide (name ∈ detected)
  end.

Fixpoint first_match (cs : list Candidate) (detected : list string)
    : option string :=
  match cs with
  | [] => None
  | (p, body) :: rest =>
      if satisfied p detected then Some body else first_match rest detected
  end.

Definition run_resolver (d : ResolverDescriptor) (detected : list string)
    : string :=
  default (fallback d) (first_match (checks d) detected).

(** The one-way state machine of a logical function. *)
Inductive ResolverState : Type :=
  | Unselected
  | Selected (chosen : string).

Definition call (d : ResolverDescriptor) (st : ResolverState)
    (detected : list string) : string * ResolverState :=
  match st with
  | Selected chosen => (chosen, st)
  | Unselected =>
      let chosen := run_resolver d detected in (chosen, Selected chosen)
  end.

(** Successive calls through the same symbol, each with the features
    detected at that moment; the list of the bodies reached. *)
Fixpoint calls (d : ResolverDescriptor) (st : ResolverState)
    (detections : list (list string)) : list string :=
  match detections with
  | [] => []
  | detected :: rest =>
      let '(chosen, st') := call d st detected in chosen :: calls d st' rest
  end.

(** The candidates of [S::foo]: as the scenario of the specification
    lists them, and as the fixture declares them in [struct S]; the checks
    that the fixture expects in the emitted resolver, in their order. *)
Definition foo_ivybridge : string := "_ZN1S3fooEi.arch_ivybridge".
Definition foo_sandybridge : string := "_ZN1S3fooEi.arch_sandybridge".
Definition foo_sse4_2 : string := "_ZN1S3fooEi.sse4.2".
Definition foo_default : string := "_ZN1S3fooEi".

Definition scenario_candidates : list Candidate :=
  [ (pred_arch "ivybridge", foo_ivybridge);
    (pred_arch "sandybridge", foo_sandybridge);
    (pred_feature "sse4.2", foo_sse4_2);
    (pred_default, foo_default) ].

Definition fixture_declared : list Candidate :=
  [ (pred_feature "sse4.2", foo_sse4_2);
    (pred_arch "sandybridge", foo_sandybridge);
    (pred_arch "ivybridge", foo_ivybridge);
    (pred_default, foo_default) ].

Definition fixture_emitted_checks : list Candidate :=
  [ (pred_arch "sandybridge", foo_sandybridge);
    (pred_arch "ivybridge", foo_ivybridge);
    (pred_feature "sse4.2", foo_sse4_2) ].

(** A table in the shape the specification gives as an example: the named
    micro-architecture levels rank before a raw instruction-set extension,
    which ranks before the default. *)
Definition example_priority : PriorityTable :=
  λ p, match p with
       | pred_arch _ => 2%nat
       | pred_feature _ => 1%nat
       | pred_default => 0%nat
       end.

Definition scenario_features : list string := ["sse4.2"; "ivybridge"].

End Resolver.

(** ** Members of the unions *)

(** Reading an integer member back from its bytes, least significant byte
    first; [to_signed] reinterprets an unsigned value of the given width as
    two's complement. *)
Fixpoint load_le (bs : list byte) : Z :=
  match bs with
  | [] => 0
  | c :: rest => uchar c + 256 * load_le rest
  end.

Definition to_signed (bits : Z) (v : Z) : Z :=
  if v <? 2 ^ (bits - 1) then v else v - 2 ^ bits.

(** The [len] bytes of a union that start at byte offset [off]. *)
Definition bytes_at {n : nat} (off len : nat) (u : vec byte n) : list byte :=
  take len (drop off (vec_to_list u)).

(** [ReturnAdjustment::VirtualAdjustment]: [Itanium.VBaseOffsetOffset] is an
    [int64_t] at offset 0; [Microsoft.VBPtrOffset] and [Microsoft.VBIndex]
    are [uint32_t] at offsets 0 and 4. *)
Module ReturnMembers.
Definition VBaseOffsetOffset (u : ReturnAdjustment.VirtualAdjustment.t) : Z :=
  to_signed 64 (load_le (bytes_at 0 8 u)).
Definition VBPtrOffset (u : ReturnAdjustment.VirtualAdjustment.t) : Z :=
  load_le (bytes_at 0 4 u).
Definition VBIndex (u : ReturnAdjustment.VirtualAdjustment.t) : Z :=
  load_le (bytes_at 4 4 u).
End ReturnMembers.

(** [ThisAdjustment::VirtualAdjustment]: [Itanium.VCallOffsetOffset] is an
    [int64_t] at offset 0 and [Itanium.VirtualBase] a pointer at offset 8;
    the three [int32_t] of the Microsoft shape are at offsets 0, 4 and 8. *)
Module ThisMembers.
Definition VCallOffsetOffset (u : ThisAdjustment.VirtualAdjustment.t) : Z :=
  to_signed 64 (load_le (bytes_at 0 8 u)).
Definition VirtualBase (u : ThisAdjustment.VirtualAdjustment.t) : ptr :=
  load_le (bytes_at 8 8 u).
Definition VtordispOffset (u : ThisAdjustment.VirtualAdjustment.t) : Z :=
  to_signed 32 (load_le (bytes_at 0 4 u)).
Definition VBPtrOffset (u : ThisAdjustment.VirtualAdjustment.t) : Z :=
  to_signed 32 (load_le (bytes_at 4 4 u)).
Definition VBOffsetOffset (u : ThisAdjustment.VirtualAdjustment.t) : Z :=
  to_signed 32 (load_le (bytes_at 8 4 u)).
End ThisMembers.

(** ** class CheerpTargetInfo (lib/Basic/Targets/WebAssembly.h) *)

Module CheerpTargetInfo.

(** [MacroBuilder] is declared in [clang/Basic/MacroBuilder.h], which is not
    part of the sources at hand.  A builder is represented by the names
    handed to [defineMacro] so far, in the order of the calls. *)
Definition MacroBuilder : Type := list string.

Definition defineMacro (Name : string) (Builder : MacroBuilder)
    : MacroBuilder :=
  Builder ++ [Name].

Section TargetDefines.

(** The enumeration of the Cheerp modes belongs to [LangOptions]; the three
    enumerators that [getTargetDefines] tests are taken as given. *)
Context {CheerpModeTy : Type} `{EqDecision CheerpModeTy}.
Variables CHEERP_MODE_AsmJS CHEERP_MODE_Wast CHEERP_MODE_Wasm : CheerpModeTy.

Record LangOptions : Type := {
  getCheerpMode : CheerpModeTy;
  CPlusPlus : bool
}.

Definition getTargetDefines (Opts : LangOptions) (Builder : MacroBuilder)
    : MacroBuilder :=
  let Builder := defineMacro "__CHEERP__" Builder in
  let Builder :=
    if bool_decide (getCheerpMode Opts = CHEERP_MODE_AsmJS) ||
       bool_decide (getCheerpMode Opts = CHEERP_MODE_Wast) ||
       bool_decide (getCheerpMode Opts = CHEERP_MODE_Wasm)
    then defineMacro "__ASMJS__" Builder else Builder in
  let Builder :=
    if bool_decide (getCheerpMode Opts = CHEERP_MODE_Wast) ||
       bool_decide (getCheerpMode Opts = CHEERP_MODE_Wasm)
    then defineMacro "__WASM__" Builder else Builder in
  let Builder :=
    if CPlusPlus Opts then defineMacro "_GNU_SOURCE" Builder else Builder in
  defineMacro "__LITTLE_ENDIAN__" Builder.

End TargetDefines.

End CheerpTargetInfo.

(** * Properties *)

(** ** Bytes and [memcmp] *)

Lemma uchar_inj (c1 c2 : byte) : uchar c1 = uchar c2 → c1 = c2.
Proof.
  unfold uchar. intros H. apply N2Z.inj in H.
  pose proof (Byte.of_to_N c1) as H1. pose proof (Byte.of_to_N c2) as H2.
  rewrite H in H1. congruence.
Qed.

Lemma memcmp_bytes_refl (s : list byte) : memcmp_bytes s s = 0.
Proof. induction s as [|c s IH]; simpl; [done|]. by rewrite Z.eqb_refl. Qed.

Lemma memcmp_bytes_antisym (s1 s2 : list byte) :
  memcmp_bytes s2 s1 = - memcmp_bytes s1 s2.
Proof.
  revert s2. induction s1 as [|c1 r1 IH]; intros [|c2 r2]; simpl; try done.
  rewrite (Z.eqb_sym (uchar c2)).
  destruct (uchar c1 =? uchar c2); [apply IH | lia].
Qed.

Lemma memcmp_bytes_eq (s1 s2 : list byte) :
  length s1 = length s2 → memcmp_bytes s1 s2 = 0 → s1 = s2.
Proof.
  revert s2. induction s1 as [|c1 r1 IH]; intros [|c2 r2]; simpl; try done.
  intros Hlen. destruct (Z.eqb_spec (uchar c1) (uchar c2)) as [Hc|Hc].
  - intros H. f_equal; [by apply uchar_inj | apply IH; [lia | done]].
  - lia.
Qed.

Lemma memcmp_bytes_lt_trans (s1 s2 s3 : list byte) :
  memcmp_bytes s1 s2 < 0 → memcmp_bytes s2 s3 < 0 → memcmp_bytes s1 s3 < 0.
Proof.
  revert s2 s3.
  induction s1 as [|c1 r1 IH]; intros [|c2 r2] [|c3 r3]; simpl; try lia.
  destruct (Z.eqb_spec (uchar c1) (uchar c2)) as [H12|H12],
           (Z.eqb_spec (uchar c2) (uchar c3)) as [H23|H23],
           (Z.eqb_spec (uchar c1) (uchar c3)) as [H13|H13];
    try lia; eauto.
Qed.

Lemma memcmp_bytes_lt_bytewise (s1 s2 : list byte) :
  memcmp_bytes s1 s2 < 0 ↔ bytewise_lt s1 s2.
Proof.
  unfold bytewise_lt. revert s2.
  induction s1 as [|c1 r1 IH]; intros [|c2 r2]; simpl.
  - split; [lia | intros (i & ? & ? & H & _); by destruct i].
  - split; [lia | intros (i & ? & ? & H & _); by destruct i].
  - split; [lia | intros (i & ? & ? & _ & H & _); by destruct i].
  - destruct (Z.eqb_spec (uchar c1) (uchar c2)) as [Hc|Hc].
    + apply uchar_inj in Hc as ->. rewrite IH. split.
      * intros (i & d1 & d2 & H1 & H2 & Hlt & Hpre).
        exists (S i), d1, d2. simpl. by rewrite Hpre.
      * intros ([|i] & d1 & d2 & H1 & H2 & Hlt & Hpre); simpl in *.
        -- simplify_eq. lia.
        -- exists i, d1, d2. by simplify_eq.
    + split.
      * intros Hlt. exists O, c1, c2. simpl. split_and!; (done || lia).
      * intros ([|i] & d1 & d2 & H1 & H2 & Hlt & Hpre); simpl in *.
        -- simplify_eq. lia.
        -- by simplify_eq.
Qed.

Lemma memcmp_refl {n : nat} (s : vec byte n) : memcmp s s = 0.
Proof. apply memcmp_bytes_refl. Qed.

Lemma memcmp_zero_iff {n : nat} (s1 s2 : vec byte n) :
  memcmp s1 s2 = 0 ↔ s1 = s2.
Proof.
  split; [|intros ->; apply memcmp_refl].
  intros H. apply vec_to_list_inj2, memcmp_bytes_eq; [|done].
  by rewrite !length_vec_to_list.
Qed.

Lemma memcmp_antisym {n : nat} (s1 s2 : vec byte n) :
  memcmp s2 s1 = - memcmp s1 s2.
Proof. apply memcmp_bytes_antisym. Qed.

Lemma memcmp_lt_trans {n : nat} (s1 s2 s3 : vec byte n) :
  memcmp s1 s2 < 0 → memcmp s2 s3 < 0 → memcmp s1 s3 < 0.
Proof. apply memcmp_bytes_lt_trans. Qed.

(** Comparing with the cleared union: all bytes are zero. *)
Lemma memcmp_zero_storage {n : nat} (s : vec byte n) :
  memcmp s (memset_zero n) = 0 ↔ Forall (λ c, c = x00) (vec_to_list s).
Proof.
  rewrite memcmp_zero_iff. unfold memset_zero. split.
  - intros ->. rewrite vec_to_list_replicate. by apply Forall_replicate.
  - intros H. apply vec_to_list_inj2. rewrite vec_to_list_replicate.
    rewrite <- (length_vec_to_list s) at 2.
    symmetry. apply replicate_as_Forall. split; [done|].
    eapply Forall_impl; [exact H|]. by intros c ->.
Qed.

(** ** The order "non-virtual offset first, then the union byte-wise" *)

Section Lexicographic.

Context {A : Type} {n : nat}.
Variable nv : A → Z.
Variable virt : A → vec byte n.
Variable lt : A → A → bool.
Hypothesis lt_unfold : ∀ x y,
  lt x y = if nv x <? nv y then true
           else (nv x =? nv y) && (memcmp (virt x) (virt y) <? 0).

Lemma lex_lt_true (x y : A) :
  lt x y = true ↔
  nv x < nv y ∨ (nv x = nv y ∧ memcmp (virt x) (virt y) < 0).
Proof.
  rewrite lt_unfold. destruct (Z.ltb_spec (nv x) (nv y)) as [H|H].
  - split; [by left | done].
  - rewrite andb_true_iff, Z.eqb_eq, Z.ltb_lt. split; [by right | lia].
Qed.

Lemma lex_lt_false (x y : A) :
  lt x y = false ↔
  nv y < nv x ∨ (nv x = nv y ∧ 0 ≤ memcmp (virt x) (virt y)).
Proof.
  rewrite <- not_true_iff_false, lex_lt_true. lia.
Qed.

Lemma lex_incomparable (x y : A) :
  incomparable lt x y ↔ nv x = nv y ∧ virt x = virt y.
Proof.
  unfold incomparable. rewrite !lex_lt_false, <- memcmp_zero_iff.
  rewrite (memcmp_antisym (virt x) (virt y)). lia.
Qed.

Lemma lex_strict_weak_order : StrictWeakOrder lt.
Proof.
  split.
  - intros x. apply lex_lt_false. right. rewrite memcmp_refl. lia.
  - intros x y z. rewrite !lex_lt_true.
    intros [H1|[H1 L1]] [H2|[H2 L2]]; try (left; lia).
    right. split; [lia|]. by apply memcmp_lt_trans with (virt y).
  - intros x y z. rewrite !lex_incomparable. intros [-> ->] [-> ->]. done.
Qed.

End Lexicographic.

(** ** ReturnAdjustment and ThisAdjustment *)

Lemma Return_lt_unfold (x y : ReturnAdjustment.t) :
  ReturnAdjustment.lt x y =
  if ReturnAdjustment.NonVirtual x <? ReturnAdjustment.NonVirtual y then true
  else (ReturnAdjustment.NonVirtual x =? ReturnAdjustment.NonVirtual y) &&
       (memcmp (ReturnAdjustment.Virtual x) (ReturnAdjustment.Virtual y) <? 0).
Proof. reflexivity. Qed.

Lemma This_lt_unfold (x y : ThisAdjustment.t) :
  ThisAdjustment.lt x y =
  if ThisAdjustment.NonVirtual x <? ThisAdjustment.NonVirtual y then true
  else (ThisAdjustment.NonVirtual x =? ThisAdjustment.NonVirtual y) &&
       (memcmp (ThisAdjustment.Virtual x) (ThisAdjustment.Virtual y) <? 0).
Proof. reflexivity. Qed.

Lemma Return_Equals_iff (a b : ReturnAdjustment.VirtualAdjustment.t) :
  ReturnAdjustment.VirtualAdjustment.Equals a b = true ↔ a = b.
Proof.
  unfold ReturnAdjustment.VirtualAdjustment.Equals.
  rewrite Z.eqb_eq. apply memcmp_zero_iff.
Qed.

Lemma This_Equals_iff (a b : ThisAdjustment.VirtualAdjustment.t) :
  ThisAdjustment.VirtualAdjustment.Equals a b = true ↔ a = b.
Proof.
  unfold ThisAdjustment.VirtualAdjustment.Equals.
  rewrite Z.eqb_eq. apply memcmp_zero_iff.
Qed.

Lemma Return_eq_iff (x y : ReturnAdjustment.t) :
  ReturnAdjustment.eq x y = true ↔
  ReturnAdjustment.NonVirtual x = ReturnAdjustment.NonVirtual y ∧
  ReturnAdjustment.Virtual x = ReturnAdjustment.Virtual y ∧
  ReturnAdjustment.AdjustmentSource x = ReturnAdjustment.AdjustmentSource y ∧
  ReturnAdjustment.AdjustmentTarget x = ReturnAdjustment.AdjustmentTarget y.
Proof.
  unfold ReturnAdjustment.eq.
  rewrite !andb_true_iff, !Z.eqb_eq, Return_Equals_iff. tauto.
Qed.

Lemma This_eq_iff (x y : ThisAdjustment.t) :
  ThisAdjustment.eq x y = true ↔
  ThisAdjustment.NonVirtual x = ThisAdjustment.NonVirtual y ∧
  ThisAdjustment.Virtual x = ThisAdjustment.Virtual y.
Proof.
  unfold ThisAdjustment.eq.
  by rewrite andb_true_iff, Z.eqb_eq, This_Equals_iff.
Qed.

Lemma Return_eq_refl (x : ReturnAdjustment.t) : ReturnAdjustment.eq x x = true.
Proof. by apply Return_eq_iff. Qed.

Lemma This_eq_refl (x : ThisAdjustment.t) : ThisAdjustment.eq x x = true.
Proof. by apply This_eq_iff. Qed.

Lemma Return_isEmpty_iff (a : ReturnAdjustment.t) :
  ReturnAdjustment.isEmpty a = true ↔
  ReturnAdjustment.NonVirtual a = 0 ∧
  Forall (λ c, c = x00) (vec_to_list (ReturnAdjustment.Virtual a)).
Proof.
  unfold ReturnAdjustment.isEmpty, ReturnAdjustment.VirtualAdjustment.isEmpty,
    ReturnAdjustment.VirtualAdjustment.Equals,
    ReturnAdjustment.VirtualAdjustment.ctor.
  by rewrite andb_true_iff, !Z.eqb_eq, memcmp_zero_storage.
Qed.

Lemma This_isEmpty_iff (a : ThisAdjustment.t) :
  ThisAdjustment.isEmpty a = true ↔
  ThisAdjustment.NonVirtual a = 0 ∧
  Forall (λ c, c = x00) (vec_to_list (ThisAdjustment.Virtual a)).
Proof.
  unfold ThisAdjustment.isEmpty, ThisAdjustment.VirtualAdjustment.isEmpty,
    ThisAdjustment.VirtualAdjustment.Equals,
    ThisAdjustment.VirtualAdjustment.ctor.
  by rewrite andb_true_iff, !Z.eqb_eq, memcmp_zero_storage.
Qed.

Lemma Return_lt_iff (x y : ReturnAdjustment.t) :
  ReturnAdjustment.lt x y = true ↔
  ReturnAdjustment.NonVirtual x < ReturnAdjustment.NonVirtual y ∨
  (ReturnAdjustment.NonVirtual x = ReturnAdjustment.NonVirtual y ∧
   bytewise_lt (vec_to_list (ReturnAdjustment.Virtual x))
               (vec_to_list (ReturnAdjustment.Virtual y))).
Proof.
  rewrite <- memcmp_bytes_lt_bytewise.
  apply (lex_lt_true _ _ _ Return_lt_unfold).
Qed.

Lemma This_lt_iff (x y : ThisAdjustment.t) :
  ThisAdjustment.lt x y = true ↔
  ThisAdjustment.NonVirtual x < ThisAdjustment.NonVirtual y ∨
  (ThisAdjustment.NonVirtual x = ThisAdjustment.NonVirtual y ∧
   bytewise_lt (vec_to_list (ThisAdjustment.Virtual x))
               (vec_to_list (ThisAdjustment.Virtual y))).
Proof.
  rewrite <- memcmp_bytes_lt_bytewise.
  apply (lex_lt_true _ _ _ This_lt_unfold).
Qed.

Lemma Return_incomparable_iff (x y : ReturnAdjustment.t) :
  incomparable ReturnAdjustment.lt x y ↔
  ReturnAdjustment.NonVirtual x = ReturnAdjustment.NonVirtual y ∧
  ReturnAdjustment.Virtual x = ReturnAdjustment.Virtual y.
Proof. apply (lex_incomparable _ _ _ Return_lt_unfold). Qed.

Lemma This_incomparable_iff (x y : ThisAdjustment.t) :
  incomparable ThisAdjustment.lt x y ↔
  ThisAdjustment.NonVirtual x = ThisAdjustment.NonVirtual y ∧
  ThisAdjustment.Virtual x = ThisAdjustment.Virtual y.
Proof. apply (lex_incomparable _ _ _ This_lt_unfold). Qed.

Lemma Return_strict_weak_order : StrictWeakOrder ReturnAdjustment.lt.
Proof. apply (lex_strict_weak_order _ _ _ Return_lt_unfold). Qed.

Lemma This_strict_weak_order : StrictWeakOrder ThisAdjustment.lt.
Proof. apply (lex_strict_weak_order _ _ _ This_lt_unfold). Qed.

Lemma Return_ctor_isEmpty (byteAddressable : bool) (t s : ptr) :
  ReturnAdjustment.isEmpty (ReturnAdjustment.ctor byteAddressable t s) = true.
Proof. reflexivity. Qed.

Lemma This_ctor_isEmpty (t s : ptr) :
  ThisAdjustment.isEmpty (ThisAdjustment.ctor t s) = true.
Proof. reflexivity. Qed.

Example itanium_storage :
  vec_to_list (ReturnAdjustment.VirtualAdjustment.Itanium (-24)) =
  [xe8; xff; xff; xff; xff; xff; xff; xff].
Proof. reflexivity. Qed.

Example microsoft_storage :
  vec_to_list (ReturnAdjustment.VirtualAdjustment.Microsoft 4 2) =
  [x04; x00; x00; x00; x02; x00; x00; x00].
Proof. reflexivity. Qed.

Example itanium_not_empty :
  ReturnAdjustment.VirtualAdjustment.isEmpty
    (ReturnAdjustment.VirtualAdjustment.Itanium (-24)) = false.
Proof. reflexivity. Qed.

(** The byte-wise order is not the numeric order of the member: on a
    little-endian host 256 is stored as [00 01 ..] and 1 as [01 00 ..]. *)
Example Less_is_bytewise :
  ReturnAdjustment.VirtualAdjustment.Less
    (ReturnAdjustment.VirtualAdjustment.Itanium 256)
    (ReturnAdjustment.VirtualAdjustment.Itanium 1) = true.
Proof. reflexivity. Qed.

(** ** Claims about the header *)

(** C1. [ThunkInfo::isEmpty()] returns true exactly when the [This]
    adjustment is empty, the [Return] adjustment is empty and [Method] is
    null: as a boolean equation, and as an equivalence. *)
Theorem C1_ThunkInfo_isEmpty (t : ThunkInfo.t) :
  ThunkInfo.isEmpty t =
    ThisAdjustment.isEmpty (ThunkInfo.This t) &&
    ReturnAdjustment.isEmpty (ThunkInfo.Return t) &&
    bool_decide (ThunkInfo.Method t = NULL)
  ∧ (ThunkInfo.isEmpty t = true ↔
     ThisAdjustment.isEmpty (ThunkInfo.This t) = true ∧
     ReturnAdjustment.isEmpty (ThunkInfo.Return t) = true ∧
     ThunkInfo.Method t = NULL).
Proof.
  unfold ThunkInfo.isEmpty. split.
  - f_equal. destruct (Z.eqb_spec (ThunkInfo.Method t) NULL) as [H|H].
    + by rewrite bool_decide_eq_true_2.
    + by rewrite bool_decide_eq_false_2.
  - rewrite !andb_true_iff, Z.eqb_eq. tauto.
Qed.

(** C2. For [ReturnAdjustment] and for [ThisAdjustment], [isEmpty()] is
    true if and only if [NonVirtual] is 0 and every byte of the virtual
    union is zero; and a freshly constructed adjustment is empty. *)
Theorem C2_adjustment_isEmpty :
  (∀ a : ReturnAdjustment.t,
     ReturnAdjustment.isEmpty a = true ↔
     ReturnAdjustment.NonVirtual a = 0 ∧
     Forall (λ c, c = x00) (vec_to_list (ReturnAdjustment.Virtual a))) ∧
  (∀ a : ThisAdjustment.t,
     ThisAdjustment.isEmpty a = true ↔
     ThisAdjustment.NonVirtual a = 0 ∧
     Forall (λ c, c = x00) (vec_to_list (ThisAdjustment.Virtual a))) ∧
  (∀ (byteAddressable : bool) (t s : ptr),
     ReturnAdjustment.isEmpty (ReturnAdjustment.ctor byteAddressable t s)
     = true) ∧
  (∀ t s : ptr, ThisAdjustment.isEmpty (ThisAdjustment.ctor t s) = true).
Proof.
  split_and!.
  - apply Return_isEmpty_iff.
  - apply This_isEmpty_iff.
  - apply Return_ctor_isEmpty.
  - apply This_ctor_isEmpty.
Qed.

(** C3, as stated, fails for [ReturnAdjustment]: two return adjustments
    built for different target classes are incomparable under [operator<],
    yet [operator==] tells them apart. *)
Lemma C3_counterexample :
  ¬ (incomparable ReturnAdjustment.lt
       (ReturnAdjustment.ctor false 1 3) (ReturnAdjustment.ctor false 2 3)
     ↔ ReturnAdjustment.eq
         (ReturnAdjustment.ctor false 1 3) (ReturnAdjustment.ctor false 2 3)
       = true).
Proof.
  intros [H _].
  assert (Hinc : incomparable ReturnAdjustment.lt
            (ReturnAdjustment.ctor false 1 3) (ReturnAdjustment.ctor false 2 3))
    by (split; reflexivity).
  specialize (H Hinc). vm_compute in H. discriminate H.
Qed.

(** C3, amended. For both adjustment types [operator<] compares the
    non-virtual offset first and then the union byte-wise, and it is a
    strict weak order.  Its equivalence is: equal non-virtual offset and
    equal union.  For [ThisAdjustment] that is [operator==]; for
    [ReturnAdjustment], [operator==] holds exactly when the values are
    equivalent and also agree on [AdjustmentSource] and
    [AdjustmentTarget]. *)
Theorem C3_adjustment_order :
  (∀ x y : ReturnAdjustment.t,
     ReturnAdjustment.lt x y = true ↔
     ReturnAdjustment.NonVirtual x < ReturnAdjustment.NonVirtual y ∨
     (ReturnAdjustment.NonVirtual x = ReturnAdjustment.NonVirtual y ∧
      bytewise_lt (vec_to_list (ReturnAdjustment.Virtual x))
                  (vec_to_list (ReturnAdjustment.Virtual y)))) ∧
  (∀ x y : ThisAdjustment.t,
     ThisAdjustment.lt x y = true ↔
     ThisAdjustment.NonVirtual x < ThisAdjustment.NonVirtual y ∨
     (ThisAdjustment.NonVirtual x = ThisAdjustment.NonVirtual y ∧
      bytewise_lt (vec_to_list (ThisAdjustment.Virtual x))
                  (vec_to_list (ThisAdjustment.Virtual y)))) ∧
  StrictWeakOrder ReturnAdjustment.lt ∧
  StrictWeakOrder ThisAdjustment.lt ∧
  (∀ x y : ThisAdjustment.t,
     incomparable ThisAdjustment.lt x y ↔ ThisAdjustment.eq x y = true) ∧
  (∀ x y : ReturnAdjustment.t,
     ReturnAdjustment.eq x y = true ↔
     incomparable ReturnAdjustment.lt x y ∧
     ReturnAdjustment.AdjustmentSource x = ReturnAdjustment.AdjustmentSource y ∧
     ReturnAdjustment.AdjustmentTarget x = ReturnAdjustment.AdjustmentTarget y).
Proof.
  split_and!.
  - apply Return_lt_iff.
  - apply This_lt_iff.
  - apply Return_strict_weak_order.
  - apply This_strict_weak_order.
  - intros x y. by rewrite This_incomparable_iff, This_eq_iff.
  - intros x y. rewrite Return_incomparable_iff, Return_eq_iff. tauto.
Qed.

(** C4, as stated, fails: [operator==] of [ThisAdjustment] holds for two
    this-adjustments with different targets, although the endpoints are
    not alike; the return adjustments built for the same classes are not
    equal. *)
Lemma C4_counterexample :
  ThisAdjustment.eq (ThisAdjustment.ctor 1 3) (ThisAdjustment.ctor 2 3) = true ∧
  ThisAdjustment.AdjustmentTarget (ThisAdjustment.ctor 1 3) ≠
    ThisAdjustment.AdjustmentTarget (ThisAdjustment.ctor 2 3) ∧
  ReturnAdjustment.eq
    (ReturnAdjustment.ctor false 1 3) (ReturnAdjustment.ctor false 2 3) = false.
Proof. split_and!; [reflexivity | discriminate | reflexivity]. Qed.

(** C4, amended. [ThisAdjustment] has the ordering and the emptiness
    contract of [ReturnAdjustment], but its [operator==] compares only the
    non-virtual offset and the virtual union, whereas [operator==] of
    [ReturnAdjustment] also compares [AdjustmentSource] and
    [AdjustmentTarget]. *)
Theorem C4_this_adjustment_contract :
  (∀ x y : ThisAdjustment.t,
     ThisAdjustment.eq x y = true ↔
     ThisAdjustment.NonVirtual x = ThisAdjustment.NonVirtual y ∧
     ThisAdjustment.Virtual x = ThisAdjustment.Virtual y) ∧
  (∀ x y : ReturnAdjustment.t,
     ReturnAdjustment.eq x y = true ↔
     ReturnAdjustment.NonVirtual x = ReturnAdjustment.NonVirtual y ∧
     ReturnAdjustment.Virtual x = ReturnAdjustment.Virtual y ∧
     ReturnAdjustment.AdjustmentSource x = ReturnAdjustment.AdjustmentSource y ∧
     ReturnAdjustment.AdjustmentTarget x = ReturnAdjustment.AdjustmentTarget y) ∧
  (∀ x y : ThisAdjustment.t,
     ThisAdjustment.lt x y =
     if ThisAdjustment.NonVirtual x <? ThisAdjustment.NonVirtual y then true
     else (ThisAdjustment.NonVirtual x =? ThisAdjustment.NonVirtual y) &&
          (memcmp (ThisAdjustment.Virtual x) (ThisAdjustment.Virtual y) <? 0)) ∧
  (∀ x y : ReturnAdjustment.t,
     ReturnAdjustment.lt x y =
     if ReturnAdjustment.NonVirtual x <? ReturnAdjustment.NonVirtual y then true
     else (ReturnAdjustment.NonVirtual x =? ReturnAdjustment.NonVirtual y) &&
          (memcmp (ReturnAdjustment.Virtual x) (ReturnAdjustment.Virtual y)
           <? 0)) ∧
  (∀ a : ThisAdjustment.t,
     ThisAdjustment.isEmpty a = true ↔
     ThisAdjustment.NonVirtual a = 0 ∧
     ThisAdjustment.Virtual a = memset_zero _) ∧
  (∀ a : ReturnAdjustment.t,
     ReturnAdjustment.isEmpty a = true ↔
     ReturnAdjustment.NonVirtual a = 0 ∧
     ReturnAdjustment.Virtual a = memset_zero _).
Proof.
  split_and!.
  - apply This_eq_iff.
  - apply Return_eq_iff.
  - apply This_lt_unfold.
  - apply Return_lt_unfold.
  - intros a. unfold ThisAdjustment.isEmpty, ThisAdjustment.VirtualAdjustment.isEmpty.
    by rewrite andb_true_iff, Z.eqb_eq, This_Equals_iff.
  - intros a.
    unfold ReturnAdjustment.isEmpty, ReturnAdjustment.VirtualAdjustment.isEmpty.
    by rewrite andb_true_iff, Z.eqb_eq, Return_Equals_iff.
Qed.

(** C5. [ReturnAdjustment(byteAddressable, t, s)] leaves both endpoints
    null when [byteAddressable] is true, whatever [t] and [s] are, and
    records [t] and [s] when it is false; [NonVirtual] is 0 in both
    cases. *)
Theorem C5_ReturnAdjustment_ctor (t s : ptr) :
  ReturnAdjustment.AdjustmentTarget (ReturnAdjustment.ctor true t s) = NULL ∧
  ReturnAdjustment.AdjustmentSource (ReturnAdjustment.ctor true t s) = NULL ∧
  ReturnAdjustment.AdjustmentTarget (ReturnAdjustment.ctor false t s) = t ∧
  ReturnAdjustment.AdjustmentSource (ReturnAdjustment.ctor false t s) = s ∧
  ReturnAdjustment.NonVirtual (ReturnAdjustment.ctor true t s) = 0 ∧
  ReturnAdjustment.NonVirtual (ReturnAdjustment.ctor false t s) = 0.
Proof. by split_and!. Qed.

(** C10. [isMemberPointerThunk] takes part neither in equality nor in
    emptiness: thunks that agree on [This], [Return] and [Method] are
    [operator==]-equal and equally empty whatever their flags are, and a
    thunk with empty adjustments and a null [Method] is empty whatever its
    flag is. *)
Theorem C10_member_pointer_flag (a b : ThunkInfo.t) :
  ThunkInfo.This a = ThunkInfo.This b →
  ThunkInfo.Return a = ThunkInfo.Return b →
  ThunkInfo.Method a = ThunkInfo.Method b →
  ThunkInfo.eq a b = true ∧
  ThunkInfo.isEmpty a = ThunkInfo.isEmpty b ∧
  (ThisAdjustment.isEmpty (ThunkInfo.This a) = true →
   ReturnAdjustment.isEmpty (ThunkInfo.Return a) = true →
   ThunkInfo.Method a = NULL →
   ThunkInfo.isEmpty a = true ∧ ThunkInfo.isEmpty b = true).
Proof.
  intros HT HR HM. unfold ThunkInfo.eq, ThunkInfo.isEmpty.
  rewrite <- HT, <- HR, <- HM. split_and!.
  - by rewrite This_eq_refl, Return_eq_refl, Z.eqb_refl.
  - done.
  - intros -> -> ->. done.
Qed.

Lemma C10_member_pointer_flag_witness :
  let a := {| ThunkInfo.This := ThisAdjustment.ctor NULL NULL;
              ThunkInfo.Return := ReturnAdjustment.ctor false 0 0;
              ThunkInfo.Method := NULL;
              ThunkInfo.isMemberPointerThunk := true |} in
  ThunkInfo.isMemberPointerThunk a ≠
    ThunkInfo.isMemberPointerThunk ThunkInfo.ctor ∧
  ThunkInfo.eq a ThunkInfo.ctor = true ∧
  ThunkInfo.isEmpty a = true.
Proof.
  intros a.
  destruct (C10_member_pointer_flag a ThunkInfo.ctor eq_refl eq_refl eq_refl)
    as (Heq & _ & Hempty).
  split; [discriminate|]. split; [exact Heq|].
  apply Hempty; reflexivity.
Defined.

(** ** The adjustment calculator *)

Lemma wrap64_range (z : Z) : Calculator.int64_range (Calculator.wrap64 z).
Proof.
  unfold Calculator.int64_range, Calculator.wrap64.
  pose proof (Z.mod_pos_bound (z + 2 ^ 63) (2 ^ 64) ltac:(lia)). lia.
Qed.

Lemma wrap64_small (z : Z) :
  Calculator.int64_range z → Calculator.wrap64 z = z.
Proof.
  unfold Calculator.int64_range, Calculator.wrap64. intros H.
  rewrite Z.mod_small by lia. lia.
Qed.

Lemma wrap64_add_l (x y : Z) :
  Calculator.wrap64 (Calculator.wrap64 x + y) = Calculator.wrap64 (x + y).
Proof.
  unfold Calculator.wrap64. f_equal.
  replace ((x + 2 ^ 63) mod 2 ^ 64 - 2 ^ 63 + y + 2 ^ 63)
    with ((x + 2 ^ 63) mod 2 ^ 64 + y) by lia.
  rewrite Z.add_mod_idemp_l by lia. f_equal. lia.
Qed.

Lemma walk_nonvirtual (path : Calculator.ClassPath) (offset : Z) :
  Calculator.crosses_virtual_base path = false →
  Calculator.wrap64 offset = offset →
  fold_left Calculator.walk_step path (offset, O) =
  (Calculator.wrap64 (offset + Calculator.path_offset_sum path), O).
Proof.
  unfold Calculator.crosses_virtual_base, Calculator.path_offset_sum.
  revert offset. induction path as [|s path IH]; intros offset; simpl.
  - intros _ Hoff. by rewrite Z.add_0_r, Hoff.
  - rewrite orb_false_iff. intros [Hs Hpath] _. rewrite Hs.
    rewrite IH; [|done|apply wrap64_small, wrap64_range].
    rewrite wrap64_add_l. do 2 f_equal. lia.
Qed.

Lemma walk_crossings_single (path : Calculator.ClassPath) :
  Calculator.crosses_virtual_base path = false →
  Calculator.walk path =
  (Calculator.wrap64 (Calculator.path_offset_sum path), O).
Proof. intros H. unfold Calculator.walk. by rewrite walk_nonvirtual. Qed.

(** C9. On a path without virtual-base crossing the calculator yields a
    this-adjustment and a return adjustment with an empty virtual
    component, under either strategy.  Their non-virtual offset is the sum
    of the sub-object offsets of the steps, reduced to the 64 bits of the
    field: it is that sum whenever the sum is a 64-bit value, as it is for
    the offsets of a laid-out object, and then a thunk is needed exactly
    when the sum is not 0.  When the sum is 0 (a class deriving
    non-virtually from its base at offset 0) both adjustments are empty and
    no thunk is needed. *)
Theorem C9_no_virtual_crossing
    (path : Calculator.ClassPath) (abi : Calculator.ABIStrategy) :
  Calculator.crosses_virtual_base path = false →
  ∃ (a : ThisAdjustment.t) (r : ReturnAdjustment.t),
    Calculator.compute_this_adjustment path abi = Some a ∧
    Calculator.compute_return_adjustment path abi = Some r ∧
    ThisAdjustment.VirtualAdjustment.isEmpty (ThisAdjustment.Virtual a) = true ∧
    ReturnAdjustment.VirtualAdjustment.isEmpty (ReturnAdjustment.Virtual r)
      = true ∧
    ThisAdjustment.NonVirtual a =
      Calculator.wrap64 (Calculator.path_offset_sum path) ∧
    ReturnAdjustment.NonVirtual r =
      Calculator.wrap64 (Calculator.path_offset_sum path) ∧
    (Calculator.int64_range (Calculator.path_offset_sum path) →
     ThisAdjustment.NonVirtual a = Calculator.path_offset_sum path ∧
     ReturnAdjustment.NonVirtual r = Calculator.path_offset_sum path ∧
     Calculator.needs_thunk a r NULL =
       negb (Calculator.path_offset_sum path =? 0)) ∧
    (Calculator.path_offset_sum path = 0 →
     ThisAdjustment.NonVirtual a = 0 ∧
     ThisAdjustment.Virtual a = ThisAdjustment.VirtualAdjustment.ctor ∧
     ThisAdjustment.isEmpty a = true ∧
     ReturnAdjustment.isEmpty r = true ∧
     Calculator.needs_thunk a r NULL = false).
Proof.
  intros Hpath.
  unfold Calculator.compute_this_adjustment,
    Calculator.compute_return_adjustment.
  rewrite (walk_crossings_single path Hpath).
  eexists _, _. split_and!; try reflexivity.
  - intros Hrange. simpl. rewrite (wrap64_small _ Hrange). split_and!; try done.
    unfold Calculator.needs_thunk, Calculator.build_thunk,
      ThunkInfo.isEmpty, ThisAdjustment.isEmpty, ReturnAdjustment.isEmpty.
    simpl. by destruct (Calculator.path_offset_sum path =? 0).
  - intros Hsum. simpl.
    unfold Calculator.needs_thunk, Calculator.build_thunk,
      ThunkInfo.isEmpty, ThisAdjustment.isEmpty, ReturnAdjustment.isEmpty.
    simpl. rewrite Hsum. by split_and!.
Qed.

Lemma C9_no_virtual_crossing_witness :
  let C_to_A := [ {| Calculator.step_from := 3; Calculator.step_to := 2;
                     Calculator.step_virtual := false;
                     Calculator.step_offset := 8 |};
                  {| Calculator.step_from := 2; Calculator.step_to := 1;
                     Calculator.step_virtual := false;
                     Calculator.step_offset := 16 |} ] in
  let B_to_A := [ {| Calculator.step_from := 2; Calculator.step_to := 1;
                     Calculator.step_virtual := false;
                     Calculator.step_offset := 0 |} ] in
  let abi := Calculator.offset_table_strategy false (λ _, 0) (λ _, 0) (λ _, 0) in
  (Calculator.crosses_virtual_base C_to_A = false ∧
   Calculator.int64_range (Calculator.path_offset_sum C_to_A) ∧
   ∃ (a : ThisAdjustment.t) (r : ReturnAdjustment.t),
     Calculator.compute_this_adjustment C_to_A abi = Some a ∧
     Calculator.compute_return_adjustment C_to_A abi = Some r ∧
     ThisAdjustment.NonVirtual a = 24 ∧
     ReturnAdjustment.NonVirtual r = 24 ∧
     ThisAdjustment.VirtualAdjustment.isEmpty (ThisAdjustment.Virtual a)
       = true ∧
     Calculator.needs_thunk a r NULL = true) ∧
  (Calculator.crosses_virtual_base B_to_A = false ∧
   ∃ (a : ThisAdjustment.t) (r : ReturnAdjustment.t),
     Calculator.compute_this_adjustment B_to_A abi = Some a ∧
     Calculator.compute_return_adjustment B_to_A abi = Some r ∧
     ThisAdjustment.NonVirtual a = 0 ∧
     ThisAdjustment.Virtual a = ThisAdjustment.VirtualAdjustment.ctor ∧
     Calculator.needs_thunk a r NULL = false).
Proof.
  intros C_to_A B_to_A abi. split.
  - assert (Hrange : Calculator.int64_range
                       (Calculator.path_offset_sum C_to_A))
      by (unfold Calculator.int64_range;
          change (Calculator.path_offset_sum C_to_A) with 24; lia).
    split; [reflexivity|]. split; [exact Hrange|].
    destruct (C9_no_virtual_crossing C_to_A abi eq_refl)
      as (a & r & Ha & Hr & Hva & _ & _ & _ & Hexact & _).
    destruct (Hexact Hrange) as (Hnva & Hnvr & Hthunk).
    exists a, r. by split_and!.
  - split; [reflexivity|].
    destruct (C9_no_virtual_crossing B_to_A abi eq_refl)
      as (a & r & Ha & Hr & _ & _ & _ & _ & _ & Hzero).
    destruct (Hzero eq_refl) as (Hnv & Hvirt & _ & _ & Hthunk).
    exists a, r. by split_and!.
Defined.

(** ** The multiversion resolver *)

Lemma satisfied_ext (p : Resolver.FeaturePredicate) (f1 f2 : list string) :
  (∀ x, x ∈ f1 ↔ x ∈ f2) →
  Resolver.satisfied p f1 = Resolver.satisfied p f2.
Proof.
  intros H. destruct p as [|cpu|name]; simpl; [done| |];
    apply bool_decide_ext, H.
Qed.

Lemma first_match_ext (cs : list Resolver.Candidate) (f1 f2 : list string) :
  (∀ x, x ∈ f1 ↔ x ∈ f2) →
  Resolver.first_match cs f1 = Resolver.first_match cs f2.
Proof.
  intros H. induction cs as [|[p body] cs IH]; simpl; [done|].
  by rewrite (satisfied_ext p f1 f2 H), IH.
Qed.

Lemma calls_Selected (d : Resolver.ResolverDescriptor) (chosen : string)
    (detections : list (list string)) :
  Resolver.calls d (Resolver.Selected chosen) detections =
  replicate (length detections) chosen.
Proof. induction detections as [|f fs IH]; simpl; [done|]. by rewrite IH. Qed.

Lemma filter_is_default_nil (candidates : list Resolver.Candidate) :
  Forall (λ c, c.1 ≠ Resolver.pred_default) candidates →
  List.filter Resolver.is_default candidates = [].
Proof.
  induction 1 as [|c cs Hc _ IH]; simpl; [done|].
  unfold Resolver.is_default at 1. by rewrite bool_decide_eq_false_2.
Qed.

(** A descriptor that is built always ends in the body of a candidate
    carrying the default predicate. *)
Lemma build_resolver_fallback (priority : Resolver.PriorityTable)
    (candidates : list Resolver.Candidate)
    (d : Resolver.ResolverDescriptor) :
  Resolver.build_resolver priority candidates = inr d →
  (Resolver.pred_default, Resolver.fallback d) ∈ candidates.
Proof.
  unfold Resolver.build_resolver.
  destruct (List.filter Resolver.is_default candidates)
    as [|[p body] [|c2 rest]] eqn:Hf; try done.
  destruct (Resolver.has_duplicate _); [done|].
  intros [= <-]. simpl.
  assert (Hin : In (p, body) (List.filter Resolver.is_default candidates))
    by (rewrite Hf; by left).
  apply filter_In in Hin as [Hin Hdef].
  unfold Resolver.is_default in Hdef. apply bool_decide_eq_true_1 in Hdef.
  simpl in Hdef. subst p. by apply list_elem_of_In.
Qed.

(** *** Ordering by the priority table *)

Lemma insert_by_priority_Permutation (priority : Resolver.PriorityTable)
    (c : Resolver.Candidate) (cs : list Resolver.Candidate) :
  Resolver.insert_by_priority priority c cs ≡ₚ c :: cs.
Proof.
  induction cs as [|c' cs IH]; simpl; [done|].
  destruct (priority c'.1 <=? priority c.1)%nat; [done|].
  rewrite IH. apply perm_swap.
Qed.

Lemma order_by_priority_Permutation (priority : Resolver.PriorityTable)
    (cs : list Resolver.Candidate) :
  Resolver.order_by_priority priority cs ≡ₚ cs.
Proof.
  induction cs as [|c cs IH]; simpl; [done|].
  by rewrite insert_by_priority_Permutation, IH.
Qed.

Lemma insert_by_priority_ordered (priority : Resolver.PriorityTable)
    (c : Resolver.Candidate) (cs : list Resolver.Candidate) :
  Resolver.most_specific_first priority cs →
  Resolver.most_specific_first priority
    (Resolver.insert_by_priority priority c cs).
Proof.
  induction cs as [|c' cs IH]; simpl; [done|].
  intros [Hall Hrest].
  destruct (Nat.leb_spec (priority c'.1) (priority c.1)) as [Hle|Hlt]; simpl.
  - split_and!; [|done..]. constructor; [done|].
    eapply Forall_impl; [exact Hall|]. simpl. lia.
  - split; [|by apply IH].
    rewrite insert_by_priority_Permutation. constructor; [lia|done].
Qed.

Lemma order_by_priority_ordered (priority : Resolver.PriorityTable)
    (cs : list Resolver.Candidate) :
  Resolver.most_specific_first priority
    (Resolver.order_by_priority priority cs).
Proof.
  induction cs as [|c cs IH]; simpl; [done|].
  by apply insert_by_priority_ordered.
Qed.

(** Equally specific candidates keep the order in which they were given:
    a candidate put in front of checks that are not more specific than it
    stays in front. *)
Lemma insert_by_priority_stable (priority : Resolver.PriorityTable)
    (c c' : Resolver.Candidate) (cs : list Resolver.Candidate) :
  (priority c'.1 ≤ priority c.1)%nat →
  Resolver.insert_by_priority priority c (c' :: cs) = c :: c' :: cs.
Proof.
  intros H. simpl. by destruct (Nat.leb_spec (priority c'.1) (priority c.1));
    [|lia].
Qed.

Lemma first_match_None (cs : list Resolver.Candidate)
    (detected : list string) :
  Resolver.first_match cs detected = None →
  ∀ q b, (q, b) ∈ cs → Resolver.satisfied q detected = false.
Proof.
  induction cs as [|[p body] cs IH]; simpl; intros H q b Hin.
  - by apply elem_of_nil in Hin.
  - destruct (Resolver.satisfied p detected) eqn:Hp; [done|].
    apply elem_of_cons in Hin as [[= -> ->]|Hin]; [done|by eapply IH].
Qed.

(** On checks ordered most specific first, the first check that holds is
    one of the most specific checks that hold. *)
Lemma first_match_most_specific (priority : Resolver.PriorityTable)
    (cs : list Resolver.Candidate) (detected : list string) (body : string) :
  Resolver.most_specific_first priority cs →
  Resolver.first_match cs detected = Some body →
  ∃ p, (p, body) ∈ cs ∧ Resolver.satisfied p detected = true ∧
       ∀ q b, (q, b) ∈ cs → Resolver.satisfied q detected = true →
              (priority q ≤ priority p)%nat.
Proof.
  induction cs as [|[p0 b0] cs IH]; simpl; [done|].
  intros [Hall Hrest] Hfirst.
  destruct (Resolver.satisfied p0 detected) eqn:Hp0.
  - injection Hfirst as <-. exists p0. split_and!; [by left|done|].
    intros q b [[= -> ->]|Hin]%elem_of_cons _; [done|].
    rewrite Forall_forall in Hall. exact (Hall (q, b) Hin).
  - destruct (IH Hrest Hfirst) as (p & Hin & Hsat & Hmax).
    exists p. split_and!; [by right|done|].
    intros q b [[= -> ->]|Hq]%elem_of_cons Hsq; [congruence|by eapply Hmax].
Qed.

Lemma elem_of_non_default (candidates : list Resolver.Candidate)
    (q : Resolver.FeaturePredicate) (b : string) :
  (q, b) ∈ List.filter (λ c, negb (Resolver.is_default c)) candidates ↔
  (q, b) ∈ candidates ∧ q ≠ Resolver.pred_default.
Proof.
  rewrite !list_elem_of_In, filter_In. unfold Resolver.is_default. simpl.
  rewrite negb_true_iff, bool_decide_eq_false. done.
Qed.

(** The resolver that is built selects the most specific candidate that
    matches: a candidate whose predicate holds, and which the table ranks
    strictly above every other non-default candidate whose predicate
    holds, is the one selected, in whatever order the candidates are
    given. *)
Lemma build_resolver_most_specific (priority : Resolver.PriorityTable)
    (candidates : list Resolver.Candidate) (d : Resolver.ResolverDescriptor)
    (detected : list string) (p : Resolver.FeaturePredicate) (body : string) :
  Resolver.build_resolver priority candidates = inr d →
  (p, body) ∈ candidates → p ≠ Resolver.pred_default →
  Resolver.satisfied p detected = true →
  (∀ q b, (q, b) ∈ candidates → q ≠ Resolver.pred_default →
          Resolver.satisfied q detected = true →
          (q, b) = (p, body) ∨ (priority q < priority p)%nat) →
  Resolver.run_resolver d detected = body.
Proof.
  unfold Resolver.build_resolver.
  destruct (List.filter Resolver.is_default candidates)
    as [|[p0 b0] [|c2 rest]]; try done.
  destruct (Resolver.has_duplicate _); [done|].
  intros [= <-] Hin Hp Hsat Hbest. unfold Resolver.run_resolver. simpl.
  set (cs := List.filter (λ c, negb (Resolver.is_default c)) candidates).
  assert (Hincs : ∀ q b, (q, b) ∈ Resolver.order_by_priority priority cs ↔
                         (q, b) ∈ candidates ∧ q ≠ Resolver.pred_default).
  { intros q b. rewrite order_by_priority_Permutation.
    apply elem_of_non_default. }
  destruct (Resolver.first_match _ detected) as [b'|] eqn:Hfirst; simpl.
  - apply (first_match_most_specific priority) in Hfirst
      as (p' & Hin' & Hsat' & Hmax); [|apply order_by_priority_ordered].
    apply Hincs in Hin' as [Hin' Hp'].
    destruct (Hbest p' b' Hin' Hp' Hsat') as [[= -> ->]|Hlt]; [done|].
    assert ((priority p ≤ priority p')%nat); [|lia].
    apply (Hmax p body); [by apply Hincs|done].
  - pose proof (first_match_None _ _ Hfirst p body) as Hnone.
    rewrite Hnone in Hsat; [done|]. by apply Hincs.
Qed.

Lemma List_filter_Permutation {A : Type} (f : A → bool) (l k : list A) :
  l ≡ₚ k → List.filter f l ≡ₚ List.filter f k.
Proof.
  induction 1 as [|x l k _ IH|x y l|l k m _ IH1 _ IH2]; simpl.
  - done.
  - destruct (f x); by rewrite IH.
  - destruct (f x), (f y); try done. apply perm_swap.
  - by rewrite IH1.
Qed.

Lemma has_duplicate_false (ps : list Resolver.FeaturePredicate) :
  Resolver.has_duplicate ps = false ↔ NoDup ps.
Proof.
  induction ps as [|p ps IH]; simpl.
  - split; [constructor|done].
  - rewrite orb_false_iff, bool_decide_eq_false, IH, NoDup_cons. done.
Qed.

(** Whether the build succeeds does not depend on the order in which the
    candidates are given. *)
Lemma build_resolver_scenario (priority : Resolver.PriorityTable)
    (candidates : list Resolver.Candidate) :
  candidates ≡ₚ Resolver.scenario_candidates →
  Resolver.build_resolver priority candidates =
  inr {| Resolver.checks :=
           Resolver.order_by_priority priority
             (List.filter (λ c, negb (Resolver.is_default c)) candidates);
         Resolver.fallback := Resolver.foo_default |}.
Proof.
  intros Hperm. unfold Resolver.build_resolver.
  pose proof (List_filter_Permutation Resolver.is_default _ _ Hperm) as Hf.
  apply Permutation_singleton_r in Hf. rewrite Hf.
  assert (Hdup : Resolver.has_duplicate (map fst candidates) = false).
  { apply has_duplicate_false. rewrite (Permutation_map fst Hperm).
    apply has_duplicate_false. reflexivity. }
  by rewrite Hdup.
Qed.

(** C6. For the four candidates of the scenario (ivybridge, sandybridge,
    sse4.2, default), given in any order, and for every priority table
    that ranks the ivybridge level above the sse4.2 extension, the
    resolver is built, and on a processor reporting sse4.2 and ivybridge
    it selects the ivybridge body, the most specific candidate that
    matches, not the sse4.2 body and not the default one. *)
Theorem C6_scenario_selects_ivybridge (priority : Resolver.PriorityTable)
    (candidates : list Resolver.Candidate) :
  (priority (Resolver.pred_feature "sse4.2") <
   priority (Resolver.pred_arch "ivybridge"))%nat →
  candidates ≡ₚ Resolver.scenario_candidates →
  ∃ d, Resolver.build_resolver priority candidates = inr d ∧
       Resolver.run_resolver d Resolver.scenario_features
         = Resolver.foo_ivybridge ∧
       Resolver.run_resolver d Resolver.scenario_features
         ≠ Resolver.foo_sse4_2 ∧
       Resolver.run_resolver d Resolver.scenario_features
         ≠ Resolver.foo_default.
Proof.
  intros Hrank Hperm. eexists. split; [by apply build_resolver_scenario|].
  assert (Hrun : Resolver.run_resolver
            {| Resolver.checks :=
                 Resolver.order_by_priority priority
                   (List.filter (λ c, negb (Resolver.is_default c))
                      candidates);
               Resolver.fallback := Resolver.foo_default |}
            Resolver.scenario_features = Resolver.foo_ivybridge).
  { apply (build_resolver_most_specific priority candidates _ _
             (Resolver.pred_arch "ivybridge"));
      [by apply build_resolver_scenario| |done|reflexivity|].
    - rewrite Hperm. by left.
    - intros q b Hin Hq Hsat. rewrite Hperm in Hin.
      unfold Resolver.scenario_candidates in Hin.
      rewrite !elem_of_cons, elem_of_nil in Hin.
      destruct Hin as [[= -> ->]|[[= -> ->]|[[= -> ->]|[[= -> ->]|[]]]]].
      + by left.
      + by vm_compute in Hsat.
      + by right.
      + done. }
  rewrite Hrun. split_and!; [done|discriminate..].
Qed.

Lemma C6_scenario_selects_ivybridge_witness :
  (Resolver.example_priority (Resolver.pred_feature "sse4.2") <
   Resolver.example_priority (Resolver.pred_arch "ivybridge"))%nat ∧
  Resolver.fixture_declared ≡ₚ Resolver.scenario_candidates ∧
  Resolver.build_resolver Resolver.example_priority Resolver.fixture_declared
  = inr {| Resolver.checks := Resolver.fixture_emitted_checks;
           Resolver.fallback := Resolver.foo_default |} ∧
  Resolver.run_resolver
    {| Resolver.checks := Resolver.fixture_emitted_checks;
       Resolver.fallback := Resolver.foo_default |}
    Resolver.scenario_features = Resolver.foo_ivybridge.
Proof.
  assert (Hrank : (Resolver.example_priority (Resolver.pred_feature "sse4.2") <
                   Resolver.example_priority (Resolver.pred_arch "ivybridge"))%nat)
    by (simpl; lia).
  assert (Hperm : Resolver.fixture_declared ≡ₚ Resolver.scenario_candidates).
  { unfold Resolver.fixture_declared, Resolver.scenario_candidates.
    etrans; [apply perm_swap|].
    etrans; [apply perm_skip, perm_swap|]. apply perm_swap. }
  destruct (C6_scenario_selects_ivybridge Resolver.example_priority
              Resolver.fixture_declared Hrank Hperm) as (d & Hbuild & Hrun & _).
  assert (Hd : Resolver.build_resolver Resolver.example_priority
                 Resolver.fixture_declared
               = inr {| Resolver.checks := Resolver.fixture_emitted_checks;
                        Resolver.fallback := Resolver.foo_default |})
    by reflexivity.
  split; [exact Hrank|]. split; [exact Hperm|]. split; [exact Hd|].
  rewrite Hd in Hbuild. injection Hbuild as <-. exact Hrun.
Defined.

(** C7. A candidate list without a default candidate is rejected: the
    build fails with the missing-fallback error and yields no
    descriptor. *)
Theorem C7_no_default_fails (priority : Resolver.PriorityTable)
    (candidates : list Resolver.Candidate) :
  Forall (λ c, c.1 ≠ Resolver.pred_default) candidates →
  Resolver.build_resolver priority candidates = inl Resolver.NoFallback ∧
  ∀ d, Resolver.build_resolver priority candidates ≠ inr d.
Proof.
  intros H. unfold Resolver.build_resolver.
  rewrite (filter_is_default_nil candidates H). by split.
Qed.

Lemma C7_no_default_fails_witness :
  let candidates :=
    [ (Resolver.pred_arch "ivybridge", Resolver.foo_ivybridge);
      (Resolver.pred_feature "sse4.2", Resolver.foo_sse4_2) ] in
  Forall (λ c, c.1 ≠ Resolver.pred_default) candidates ∧
  Resolver.build_resolver Resolver.example_priority candidates
  = inl Resolver.NoFallback.
Proof.
  intros candidates.
  assert (H : Forall (λ c, c.1 ≠ Resolver.pred_default) candidates)
    by (repeat constructor; discriminate).
  split; [exact H|].
  exact (proj1 (C7_no_default_fails Resolver.example_priority candidates H)).
Defined.

(** C8. The selection is stable: on equal sets of detected features two
    runs of the resolver return the same body, and from the unselected
    state every call through the symbol, the first one and all later ones,
    reaches the body the first run selects. *)
Theorem C8_selection_stable (d : Resolver.ResolverDescriptor)
    (f1 f2 : list string) :
  (∀ x, x ∈ f1 ↔ x ∈ f2) →
  Resolver.run_resolver d f1 = Resolver.run_resolver d f2 ∧
  ∀ later : list (list string),
    Resolver.calls d Resolver.Unselected (f1 :: later) =
    replicate (S (length later)) (Resolver.run_resolver d f2).
Proof.
  intros H.
  assert (Hrun : Resolver.run_resolver d f1 = Resolver.run_resolver d f2)
    by (unfold Resolver.run_resolver; by rewrite (first_match_ext _ f1 f2 H)).
  split; [done|]. intros later. simpl.
  by rewrite calls_Selected, Hrun.
Qed.

Lemma C8_selection_stable_witness :
  let d := {| Resolver.checks :=
                [ (Resolver.pred_arch "ivybridge", Resolver.foo_ivybridge);
                  (Resolver.pred_feature "sse4.2", Resolver.foo_sse4_2) ];
              Resolver.fallback := Resolver.foo_default |} in
  let f1 := ["sse4.2"; "ivybridge"] in
  let f2 := ["ivybridge"; "sse4.2"; "ivybridge"] in
  (∀ x : string, x ∈ f1 ↔ x ∈ f2) ∧
  Resolver.calls d Resolver.Unselected [f1; []; ["sse4.2"]] =
  [Resolver.foo_ivybridge; Resolver.foo_ivybridge; Resolver.foo_ivybridge].
Proof.
  intros d f1 f2.
  assert (H : ∀ x : string, x ∈ f1 ↔ x ∈ f2) by (intros x; unfold f1, f2;
        rewrite !elem_of_cons, !elem_of_nil; tauto).
  split; [exact H|].
  exact (proj2 (C8_selection_stable d f1 f2 H) [[]; ["sse4.2"]]).
Defined.

(** * Further properties of the header *)

(** ** Equality, inequality and order of the adjustments *)

Lemma Return_eq_leibniz (x y : ReturnAdjustment.t) :
  ReturnAdjustment.eq x y = true ↔ x = y.
Proof.
  rewrite Return_eq_iff. split.
  - destruct x, y; simpl. intros (-> & -> & -> & ->). done.
  - by intros ->.
Qed.

Lemma memcmp_sign_cases {n : nat} (a b : vec byte n) :
  (memcmp a b < 0 ∧ memcmp b a > 0 ∧ a ≠ b) ∨
  (memcmp a b = 0 ∧ memcmp b a = 0 ∧ a = b) ∨
  (memcmp a b > 0 ∧ memcmp b a < 0 ∧ a ≠ b).
Proof.
  pose proof (memcmp_antisym a b) as Hanti.
  pose proof (memcmp_zero_iff a b) as Hzero.
  destruct (Z.lt_trichotomy (memcmp a b) 0) as [H|[H|H]].
  - left. split_and!; [lia | lia | intros E; apply Hzero in E; lia].
  - right; left. split_and!; [lia | lia | by apply Hzero].
  - right; right. split_and!; [lia | lia | intros E; apply Hzero in E; lia].
Qed.

(** [operator==] of [ReturnAdjustment] holds exactly when the two values
    have the same four members, and [operator!=] is decided by [operator<]
    and the endpoints: two return adjustments differ if and only if one is
    below the other or their sources or targets differ; a value is never
    both below and above another one. *)
Theorem ReturnAdjustment_eq_ne_lt (x y : ReturnAdjustment.t) :
  (ReturnAdjustment.eq x y = true ↔ x = y) ∧
  ReturnAdjustment.ne x y =
    ReturnAdjustment.lt x y || ReturnAdjustment.lt y x ||
    negb (ReturnAdjustment.AdjustmentSource x =?
          ReturnAdjustment.AdjustmentSource y) ||
    negb (ReturnAdjustment.AdjustmentTarget x =?
          ReturnAdjustment.AdjustmentTarget y) ∧
  ReturnAdjustment.lt x y && ReturnAdjustment.lt y x = false.
Proof.
  split; [apply Return_eq_leibniz|].
  unfold ReturnAdjustment.ne, ReturnAdjustment.eq, ReturnAdjustment.lt,
    ReturnAdjustment.VirtualAdjustment.Equals,
    ReturnAdjustment.VirtualAdjustment.Less.
  destruct (memcmp_sign_cases (ReturnAdjustment.Virtual x)
              (ReturnAdjustment.Virtual y)) as [H|[H|H]];
    destruct (Z.ltb_spec (ReturnAdjustment.NonVirtual x)
                (ReturnAdjustment.NonVirtual y));
    destruct (Z.ltb_spec (ReturnAdjustment.NonVirtual y)
                (ReturnAdjustment.NonVirtual x));
    destruct (Z.eqb_spec (ReturnAdjustment.NonVirtual x)
                (ReturnAdjustment.NonVirtual y));
    destruct (Z.eqb_spec (ReturnAdjustment.NonVirtual y)
                (ReturnAdjustment.NonVirtual x));
    destruct (Z.eqb_spec (memcmp (ReturnAdjustment.Virtual x)
                (ReturnAdjustment.Virtual y)) 0);
    destruct (Z.ltb_spec (memcmp (ReturnAdjustment.Virtual x)
                (ReturnAdjustment.Virtual y)) 0);
    destruct (Z.ltb_spec (memcmp (ReturnAdjustment.Virtual y)
                (ReturnAdjustment.Virtual x)) 0);
    try lia; simpl;
    destruct (ReturnAdjustment.AdjustmentSource x =?
              ReturnAdjustment.AdjustmentSource y);
    destruct (ReturnAdjustment.AdjustmentTarget x =?
              ReturnAdjustment.AdjustmentTarget y); done.
Qed.

(** [operator!=] of [ThisAdjustment] is decided by [operator<] alone: two
    this-adjustments differ if and only if one is below the other, and
    never both ways; so exactly one of [x < y], [x == y], [y < x] holds. *)
Theorem ThisAdjustment_trichotomy (x y : ThisAdjustment.t) :
  ThisAdjustment.ne x y = ThisAdjustment.lt x y || ThisAdjustment.lt y x ∧
  ThisAdjustment.lt x y && ThisAdjustment.lt y x = false ∧
  ThisAdjustment.eq x y = ThisAdjustment.eq y x.
Proof.
  unfold ThisAdjustment.ne, ThisAdjustment.eq, ThisAdjustment.lt,
    ThisAdjustment.VirtualAdjustment.Equals,
    ThisAdjustment.VirtualAdjustment.Less.
  destruct (memcmp_sign_cases (ThisAdjustment.Virtual x)
              (ThisAdjustment.Virtual y)) as [H|[H|H]];
    destruct (Z.ltb_spec (ThisAdjustment.NonVirtual x)
                (ThisAdjustment.NonVirtual y));
    destruct (Z.ltb_spec (ThisAdjustment.NonVirtual y)
                (ThisAdjustment.NonVirtual x));
    destruct (Z.eqb_spec (ThisAdjustment.NonVirtual x)
                (ThisAdjustment.NonVirtual y));
    destruct (Z.eqb_spec (ThisAdjustment.NonVirtual y)
                (ThisAdjustment.NonVirtual x));
    destruct (Z.eqb_spec (memcmp (ThisAdjustment.Virtual x)
                (ThisAdjustment.Virtual y)) 0);
    destruct (Z.eqb_spec (memcmp (ThisAdjustment.Virtual y)
                (ThisAdjustment.Virtual x)) 0);
    destruct (Z.ltb_spec (memcmp (ThisAdjustment.Virtual x)
                (ThisAdjustment.Virtual y)) 0);
    destruct (Z.ltb_spec (memcmp (ThisAdjustment.Virtual y)
                (ThisAdjustment.Virtual x)) 0);
    try lia; done.
Qed.

(** [operator==] of [ThisAdjustment] is a congruence for the rest of the
    interface: values that compare equal are interchangeable on either
    side of [operator==] and of [operator<], and are equally empty. *)
Theorem ThisAdjustment_eq_congruence (x y : ThisAdjustment.t) :
  ThisAdjustment.eq x y = true →
  ThisAdjustment.isEmpty x = ThisAdjustment.isEmpty y ∧
  ∀ z : ThisAdjustment.t,
    ThisAdjustment.eq x z = ThisAdjustment.eq y z ∧
    ThisAdjustment.eq z x = ThisAdjustment.eq z y ∧
    ThisAdjustment.lt x z = ThisAdjustment.lt y z ∧
    ThisAdjustment.lt z x = ThisAdjustment.lt z y.
Proof.
  intros [Hnv Hvirt]%This_eq_iff.
  unfold ThisAdjustment.isEmpty, ThisAdjustment.eq, ThisAdjustment.lt.
  rewrite Hnv, Hvirt. done.
Qed.

Lemma ThisAdjustment_eq_congruence_witness :
  let x := ThisAdjustment.ctor 1 3 in
  let y := ThisAdjustment.ctor 2 4 in
  x ≠ y ∧ ThisAdjustment.eq x y = true ∧
  ThisAdjustment.isEmpty x = ThisAdjustment.isEmpty y.
Proof.
  intros x y. split; [discriminate|]. split; [reflexivity|].
  exact (proj1 (ThisAdjustment_eq_congruence x y eq_refl)).
Defined.

(** Two empty this-adjustments always compare equal, whatever classes they
    were built for; two empty return adjustments compare equal exactly when
    their sources agree and their targets agree. *)
Theorem empty_adjustments_compare
    (x y : ThisAdjustment.t) (r1 r2 : ReturnAdjustment.t) :
  ThisAdjustment.isEmpty x = true → ThisAdjustment.isEmpty y = true →
  ReturnAdjustment.isEmpty r1 = true → ReturnAdjustment.isEmpty r2 = true →
  ThisAdjustment.eq x y = true ∧
  ReturnAdjustment.eq r1 r2 =
    (ReturnAdjustment.AdjustmentSource r1 =?
     ReturnAdjustment.AdjustmentSource r2) &&
    (ReturnAdjustment.AdjustmentTarget r1 =?
     ReturnAdjustment.AdjustmentTarget r2).
Proof.
  unfold ThisAdjustment.isEmpty, ReturnAdjustment.isEmpty,
    ThisAdjustment.VirtualAdjustment.isEmpty,
    ReturnAdjustment.VirtualAdjustment.isEmpty.
  rewrite !andb_true_iff, !Z.eqb_eq, !This_Equals_iff, !Return_Equals_iff.
  intros [Hx1 Hx2] [Hy1 Hy2] [H11 H12] [H21 H22]. split.
  - apply This_eq_iff. by rewrite Hx1, Hx2, Hy1, Hy2.
  - unfold ReturnAdjustment.eq. rewrite H11, H12, H21, H22.
    by rewrite Z.eqb_refl, (proj2 (Return_Equals_iff _ _) eq_refl).
Qed.

Lemma empty_adjustments_compare_witness :
  ThisAdjustment.eq (ThisAdjustment.ctor 1 3) (ThisAdjustment.ctor 2 4) = true ∧
  ReturnAdjustment.eq
    (ReturnAdjustment.ctor false 1 3) (ReturnAdjustment.ctor false 2 3) = false ∧
  ReturnAdjustment.eq
    (ReturnAdjustment.ctor true 1 3) (ReturnAdjustment.ctor true 2 3) = true.
Proof.
  pose proof (empty_adjustments_compare
                (ThisAdjustment.ctor 1 3) (ThisAdjustment.ctor 2 4)
                (ReturnAdjustment.ctor false 1 3)
                (ReturnAdjustment.ctor false 2 3)
                eq_refl eq_refl eq_refl eq_refl) as [H1 H2].
  split; [exact H1|]. split; [exact H2|]. reflexivity.
Defined.

(** ** ThunkInfo *)

Lemma ThunkInfo_eq_iff (a b : ThunkInfo.t) :
  ThunkInfo.eq a b = true ↔
  ThisAdjustment.NonVirtual (ThunkInfo.This a) =
    ThisAdjustment.NonVirtual (ThunkInfo.This b) ∧
  ThisAdjustment.Virtual (ThunkInfo.This a) =
    ThisAdjustment.Virtual (ThunkInfo.This b) ∧
  ThunkInfo.Return a = ThunkInfo.Return b ∧
  ThunkInfo.Method a = ThunkInfo.Method b.
Proof.
  unfold ThunkInfo.eq.
  rewrite !andb_true_iff, This_eq_iff, Return_eq_leibniz, Z.eqb_eq. tauto.
Qed.

(** [operator==] of [ThunkInfo] is an equivalence: every thunk equals
    itself, and the relation is symmetric and transitive; thunks that
    compare equal are equally empty, so a thunk equal to one that is
    elided is elided as well. *)
Theorem ThunkInfo_eq_equivalence :
  (∀ a : ThunkInfo.t, ThunkInfo.eq a a = true) ∧
  (∀ a b : ThunkInfo.t, ThunkInfo.eq a b = true → ThunkInfo.eq b a = true) ∧
  (∀ a b c : ThunkInfo.t,
     ThunkInfo.eq a b = true → ThunkInfo.eq b c = true →
     ThunkInfo.eq a c = true) ∧
  (∀ a b : ThunkInfo.t,
     ThunkInfo.eq a b = true → ThunkInfo.isEmpty a = ThunkInfo.isEmpty b).
Proof.
  split_and!.
  - intros a. by apply ThunkInfo_eq_iff.
  - intros a b. rewrite !ThunkInfo_eq_iff. intros (? & ? & ? & ?).
    by split_and!.
  - intros a b c. rewrite !ThunkInfo_eq_iff.
    intros (? & ? & ? & ?) (? & ? & ? & ?). split_and!; congruence.
  - intros a b. rewrite ThunkInfo_eq_iff. intros (Hnv & Hvirt & Hret & Hm).
    unfold ThunkInfo.isEmpty, ThisAdjustment.isEmpty.
    by rewrite Hnv, Hvirt, Hret, Hm.
Qed.

Lemma ThunkInfo_eq_equivalence_witness :
  let a := ThunkInfo.ctor3 (ThisAdjustment.ctor 1 3)
             (ReturnAdjustment.ctor false 5 6) 7 in
  let b := {| ThunkInfo.This := ThisAdjustment.ctor 2 4;
              ThunkInfo.Return := ReturnAdjustment.ctor false 5 6;
              ThunkInfo.Method := 7;
              ThunkInfo.isMemberPointerThunk := true |} in
  a ≠ b ∧ ThunkInfo.eq a a = true ∧ ThunkInfo.eq a b = true ∧
  ThunkInfo.eq b a = true ∧ ThunkInfo.isEmpty a = ThunkInfo.isEmpty b.
Proof.
  intros a b.
  destruct ThunkInfo_eq_equivalence as (Hrefl & Hsym & _ & Hemp).
  assert (Hab : ThunkInfo.eq a b = true) by reflexivity.
  split; [discriminate|]. split; [exact (Hrefl a)|]. split; [exact Hab|].
  split; [exact (Hsym a b Hab) | exact (Hemp a b Hab)].
Defined.

(** A thunk compares equal to the default-constructed [ThunkInfo()]
    exactly when it is empty and the endpoints of its return adjustment
    are null: an empty thunk whose return adjustment records classes is
    not equal to [ThunkInfo()]. *)
Theorem ThunkInfo_eq_default (t : ThunkInfo.t) :
  ThunkInfo.eq t ThunkInfo.ctor =
    ThunkInfo.isEmpty t &&
    (ReturnAdjustment.AdjustmentSource (ThunkInfo.Return t) =? NULL) &&
    (ReturnAdjustment.AdjustmentTarget (ThunkInfo.Return t) =? NULL)
  ∧ ThunkInfo.eq ThunkInfo.ctor t = ThunkInfo.eq t ThunkInfo.ctor.
Proof.
  split.
  - unfold ThunkInfo.eq, ThunkInfo.isEmpty, ThisAdjustment.eq,
      ThisAdjustment.isEmpty, ReturnAdjustment.eq, ReturnAdjustment.isEmpty,
      ThisAdjustment.VirtualAdjustment.isEmpty,
      ReturnAdjustment.VirtualAdjustment.isEmpty.
    simpl. unfold NULL.
    destruct (ThisAdjustment.NonVirtual (ThunkInfo.This t) =? 0),
      (ThisAdjustment.VirtualAdjustment.Equals _ _),
      (ReturnAdjustment.NonVirtual (ThunkInfo.Return t) =? 0),
      (ReturnAdjustment.VirtualAdjustment.Equals _ _),
      (ReturnAdjustment.AdjustmentSource (ThunkInfo.Return t) =? 0),
      (ReturnAdjustment.AdjustmentTarget (ThunkInfo.Return t) =? 0),
      (ThunkInfo.Method t =? 0); done.
  - apply eq_true_iff_eq. rewrite !ThunkInfo_eq_iff.
    split; intros (? & ? & ? & ?); by split_and!.
Qed.

(** ** The cleared union is the least one *)

Lemma memcmp_bytes_zero_nonneg (s : list byte) (n : nat) :
  0 ≤ memcmp_bytes s (replicate n x00).
Proof.
  revert n. induction s as [|c s IH]; intros [|n]; simpl; try lia.
  change (uchar x00) with 0.
  pose proof (N2Z.is_nonneg (Byte.to_N c)) as Hc. fold (uchar c) in Hc.
  destruct (Z.eqb_spec (uchar c) 0); [apply IH | lia].
Qed.

Lemma memcmp_zero_nonneg {n : nat} (s : vec byte n) :
  0 ≤ memcmp s (memset_zero n).
Proof.
  unfold memcmp, memset_zero. rewrite vec_to_list_replicate.
  apply memcmp_bytes_zero_nonneg.
Qed.

(** No union is below the cleared one under [Less], and the cleared union
    is below exactly the unions that are not empty; this holds for the
    union of [ReturnAdjustment] and for the union of [ThisAdjustment]. *)
Theorem cleared_union_least :
  (∀ u : ReturnAdjustment.VirtualAdjustment.t,
     ReturnAdjustment.VirtualAdjustment.Less u
       ReturnAdjustment.VirtualAdjustment.ctor = false ∧
     ReturnAdjustment.VirtualAdjustment.Less
       ReturnAdjustment.VirtualAdjustment.ctor u =
     negb (ReturnAdjustment.VirtualAdjustment.isEmpty u)) ∧
  (∀ u : ThisAdjustment.VirtualAdjustment.t,
     ThisAdjustment.VirtualAdjustment.Less u
       ThisAdjustment.VirtualAdjustment.ctor = false ∧
     ThisAdjustment.VirtualAdjustment.Less
       ThisAdjustment.VirtualAdjustment.ctor u =
     negb (ThisAdjustment.VirtualAdjustment.isEmpty u)).
Proof.
  split; intros u.
  - unfold ReturnAdjustment.VirtualAdjustment.Less,
      ReturnAdjustment.VirtualAdjustment.isEmpty,
      ReturnAdjustment.VirtualAdjustment.Equals,
      ReturnAdjustment.VirtualAdjustment.ctor.
    pose proof (memcmp_zero_nonneg u) as H.
    rewrite (memcmp_antisym u (memset_zero _)).
    destruct (Z.ltb_spec (memcmp u (memset_zero _)) 0),
      (Z.ltb_spec (- memcmp u (memset_zero _)) 0),
      (Z.eqb_spec (memcmp u (memset_zero _)) 0); simpl; (done || lia).
  - unfold ThisAdjustment.VirtualAdjustment.Less,
      ThisAdjustment.VirtualAdjustment.isEmpty,
      ThisAdjustment.VirtualAdjustment.Equals,
      ThisAdjustment.VirtualAdjustment.ctor.
    pose proof (memcmp_zero_nonneg u) as H.
    rewrite (memcmp_antisym u (memset_zero _)).
    destruct (Z.ltb_spec (memcmp u (memset_zero _)) 0),
      (Z.ltb_spec (- memcmp u (memset_zero _)) 0),
      (Z.eqb_spec (memcmp u (memset_zero _)) 0); simpl; (done || lia).
Qed.

(** ** Members of the unions *)

Lemma uchar_range (c : byte) : 0 ≤ uchar c < 256.
Proof. unfold uchar. pose proof (Byte.to_N_bounded c). lia. Qed.

Lemma uchar_byte_of_Z (v : Z) : uchar (byte_of_Z v) = v mod 256.
Proof.
  unfold uchar, byte_of_Z.
  pose proof (Z.mod_pos_bound v 256 ltac:(lia)) as Hr.
  pose proof (Byte.to_of_N_option_map (Z.to_N (v mod 256))) as H.
  destruct (N.leb_spec (Z.to_N (v mod 256)) 255) as [Hle|Hgt]; [|lia].
  destruct (Byte.of_N (Z.to_N (v mod 256))) as [b|]; simpl in *; [|done].
  injection H as ->. lia.
Qed.

Lemma load_le_bytes (n : nat) (v : Z) :
  load_le (vec_to_list (le_bytes n v)) = v mod 256 ^ Z.of_nat n.
Proof.
  revert v. induction n as [|n IH]; intros v.
  - simpl. by rewrite Z.mod_1_r.
  - cbn [le_bytes]. rewrite vec_to_list_cons. cbn [load_le].
    rewrite uchar_byte_of_Z, IH, Nat2Z.inj_succ, Z.pow_succ_r by lia.
    assert (0 < 256 ^ Z.of_nat n) by (apply Z.pow_pos_nonneg; lia).
    by rewrite Z.rem_mul_r by lia.
Qed.

Lemma load_le_range (bs : list byte) :
  0 ≤ load_le bs < 256 ^ Z.of_nat (length bs).
Proof.
  induction bs as [|c bs IH]; [simpl; lia|].
  cbn [load_le length]. rewrite Nat2Z.inj_succ, Z.pow_succ_r by lia.
  pose proof (uchar_range c). lia.
Qed.

Lemma load_le_inj (bs1 bs2 : list byte) :
  length bs1 = length bs2 → load_le bs1 = load_le bs2 → bs1 = bs2.
Proof.
  revert bs2. induction bs1 as [|c1 r1 IH]; intros [|c2 r2]; simpl; try done.
  intros Hlen Hload.
  pose proof (uchar_range c1). pose proof (uchar_range c2).
  assert (uchar c1 = uchar c2 ∧ load_le r1 = load_le r2) as [Hc Hr] by lia.
  f_equal; [by apply uchar_inj | apply IH; [lia | done]].
Qed.

Lemma pow2_double (bits : Z) : 0 < bits → 2 ^ bits = 2 * 2 ^ (bits - 1).
Proof. intros H. rewrite <- Z.pow_succ_r by lia. f_equal. lia. Qed.

Lemma to_signed_inj (bits v w : Z) :
  0 < bits → 0 ≤ v < 2 ^ bits → 0 ≤ w < 2 ^ bits →
  to_signed bits v = to_signed bits w → v = w.
Proof.
  intros Hb Hv Hw. unfold to_signed. pose proof (pow2_double bits Hb).
  destruct (Z.ltb_spec v (2 ^ (bits - 1))), (Z.ltb_spec w (2 ^ (bits - 1)));
    lia.
Qed.

Lemma to_signed_mod (bits v : Z) :
  0 < bits → - 2 ^ (bits - 1) ≤ v < 2 ^ (bits - 1) →
  to_signed bits (v mod 2 ^ bits) = v.
Proof.
  intros Hb Hv. unfold to_signed. pose proof (pow2_double bits Hb) as Hd.
  destruct (Z_lt_le_dec v 0) as [Hneg|Hpos].
  - rewrite <- (Z.mod_add v 1 (2 ^ bits)) by lia.
    rewrite Z.mod_small by lia.
    destruct (Z.ltb_spec (v + 1 * 2 ^ bits) (2 ^ (bits - 1))); lia.
  - rewrite Z.mod_small by lia.
    destruct (Z.ltb_spec v (2 ^ (bits - 1))); lia.
Qed.

Lemma bytes_at_length {n : nat} (off len : nat) (u : vec byte n) :
  (off + len ≤ n)%nat → length (bytes_at off len u) = len.
Proof.
  intros H. unfold bytes_at.
  rewrite length_take, length_drop, length_vec_to_list. lia.
Qed.

Lemma bytes_at_split {n : nat} (k : nat) (u : vec byte n) :
  vec_to_list u = bytes_at 0 k u ++ bytes_at k (n - k) u.
Proof.
  unfold bytes_at. rewrite !drop_0.
  rewrite (take_ge (drop k _)) by (rewrite length_drop, length_vec_to_list; lia).
  by rewrite take_drop.
Qed.

Lemma bytes_at_all {n : nat} (u : vec byte n) :
  bytes_at 0 n u = vec_to_list u.
Proof.
  unfold bytes_at. rewrite drop_0.
  apply take_ge. by rewrite length_vec_to_list.
Qed.

Lemma bytes_at_vapp_l {n m : nat} (a : vec byte n) (b : vec byte m) :
  bytes_at 0 n (vapp a b) = vec_to_list a.
Proof.
  unfold bytes_at. rewrite drop_0, vec_to_list_app.
  apply take_app_length'. by rewrite length_vec_to_list.
Qed.

Lemma bytes_at_vapp_r {n m : nat} (off len : nat)
    (a : vec byte n) (b : vec byte m) :
  bytes_at (n + off) len (vapp a b) = bytes_at off len b.
Proof.
  unfold bytes_at. rewrite vec_to_list_app, <- drop_drop.
  by rewrite (drop_app_length' (vec_to_list a)) by
    (by rewrite length_vec_to_list).
Qed.

Lemma unsigned_member_inj {n : nat} (off len : nat) (u1 u2 : vec byte n) :
  (off + len ≤ n)%nat →
  load_le (bytes_at off len u1) = load_le (bytes_at off len u2) →
  bytes_at off len u1 = bytes_at off len u2.
Proof.
  intros Hin H. apply load_le_inj; [|done]. by rewrite !bytes_at_length.
Qed.

Lemma signed_member_inj {n : nat} (off len : nat) (u1 u2 : vec byte n) :
  (0 < len)%nat → (off + len ≤ n)%nat →
  to_signed (8 * Z.of_nat len) (load_le (bytes_at off len u1)) =
  to_signed (8 * Z.of_nat len) (load_le (bytes_at off len u2)) →
  bytes_at off len u1 = bytes_at off len u2.
Proof.
  intros Hlen Hin H. apply unsigned_member_inj; [done|].
  assert (Hpow : 2 ^ (8 * Z.of_nat len) = 256 ^ Z.of_nat len)
    by (rewrite Z.pow_mul_r by lia; done).
  pose proof (load_le_range (bytes_at off len u1)) as H1.
  pose proof (load_le_range (bytes_at off len u2)) as H2.
  rewrite bytes_at_length in H1, H2 by done.
  apply (to_signed_inj (8 * Z.of_nat len)); [lia | lia | lia | done].
Qed.

Lemma Return_Equals_Itanium (u1 u2 : ReturnAdjustment.VirtualAdjustment.t) :
  ReturnAdjustment.VirtualAdjustment.Equals u1 u2 = true ↔
  ReturnMembers.VBaseOffsetOffset u1 = ReturnMembers.VBaseOffsetOffset u2.
Proof.
  rewrite Return_Equals_iff. split; [by intros ->|].
  unfold ReturnMembers.VBaseOffsetOffset. intros H.
  apply (signed_member_inj 0 8 u1 u2) in H; [|lia|cbv; lia].
  apply vec_to_list_inj2.
  by rewrite <- (bytes_at_all u1), <- (bytes_at_all u2).
Qed.

Lemma Return_Equals_Microsoft (u1 u2 : ReturnAdjustment.VirtualAdjustment.t) :
  ReturnAdjustment.VirtualAdjustment.Equals u1 u2 = true ↔
  ReturnMembers.VBPtrOffset u1 = ReturnMembers.VBPtrOffset u2 ∧
  ReturnMembers.VBIndex u1 = ReturnMembers.VBIndex u2.
Proof.
  rewrite Return_Equals_iff. split; [by intros ->|].
  unfold ReturnMembers.VBPtrOffset, ReturnMembers.VBIndex. intros [H1 H2].
  apply (unsigned_member_inj 0 4 u1 u2) in H1; [|cbv; lia].
  apply (unsigned_member_inj 4 4 u1 u2) in H2; [|cbv; lia].
  apply vec_to_list_inj2.
  rewrite (bytes_at_split 4 u1), (bytes_at_split 4 u2).
  by f_equal.
Qed.

Lemma This_Equals_Itanium (u1 u2 : ThisAdjustment.VirtualAdjustment.t) :
  ThisAdjustment.VirtualAdjustment.Equals u1 u2 = true ↔
  ThisMembers.VCallOffsetOffset u1 = ThisMembers.VCallOffsetOffset u2 ∧
  ThisMembers.VirtualBase u1 = ThisMembers.VirtualBase u2.
Proof.
  rewrite This_Equals_iff. split; [by intros ->|].
  unfold ThisMembers.VCallOffsetOffset, ThisMembers.VirtualBase.
  intros [H1 H2].
  apply (signed_member_inj 0 8 u1 u2) in H1; [|lia|cbv; lia].
  apply (unsigned_member_inj 8 8 u1 u2) in H2; [|cbv; lia].
  apply vec_to_list_inj2.
  rewrite (bytes_at_split 8 u1), (bytes_at_split 8 u2).
  by f_equal.
Qed.

Lemma Return_Itanium_bytes (v : Z) :
  bytes_at 0 8 (ReturnAdjustment.VirtualAdjustment.Itanium v) =
  vec_to_list (le_bytes 8 v).
Proof. exact (bytes_at_all (le_bytes 8 v)). Qed.

Lemma Return_Microsoft_bytes_0 (a b : Z) :
  bytes_at 0 4 (ReturnAdjustment.VirtualAdjustment.Microsoft a b) =
  vec_to_list (le_bytes 4 a).
Proof. exact (bytes_at_vapp_l (le_bytes 4 a) (le_bytes 4 b)). Qed.

Lemma Return_Microsoft_bytes_4 (a b : Z) :
  bytes_at 4 4 (ReturnAdjustment.VirtualAdjustment.Microsoft a b) =
  vec_to_list (le_bytes 4 b).
Proof.
  etrans; [exact (bytes_at_vapp_r 0 4 (le_bytes 4 a) (le_bytes 4 b))|].
  exact (bytes_at_all (le_bytes 4 b)).
Qed.

Lemma This_Itanium_bytes_0 (v p : Z) :
  bytes_at 0 8 (ThisAdjustment.VirtualAdjustment.Itanium v p) =
  vec_to_list (le_bytes 8 v).
Proof. exact (bytes_at_vapp_l (le_bytes 8 v) (le_bytes 8 p)). Qed.

Lemma This_Itanium_bytes_8 (v p : Z) :
  bytes_at 8 8 (ThisAdjustment.VirtualAdjustment.Itanium v p) =
  vec_to_list (le_bytes 8 p).
Proof.
  etrans; [exact (bytes_at_vapp_r 0 8 (le_bytes 8 v) (le_bytes 8 p))|].
  exact (bytes_at_all (le_bytes 8 p)).
Qed.

Lemma This_Microsoft_bytes_0 (a b c : Z) :
  bytes_at 0 4 (ThisAdjustment.VirtualAdjustment.Microsoft a b c) =
  vec_to_list (le_bytes 4 a).
Proof. exact (bytes_at_vapp_l (le_bytes 4 a) _). Qed.

Lemma This_Microsoft_bytes_4 (a b c : Z) :
  bytes_at 4 4 (ThisAdjustment.VirtualAdjustment.Microsoft a b c) =
  vec_to_list (le_bytes 4 b).
Proof.
  etrans; [exact (bytes_at_vapp_r 0 4 (le_bytes 4 a) _)|].
  exact (bytes_at_vapp_l (le_bytes 4 b) _).
Qed.

Lemma This_Microsoft_bytes_8 (a b c : Z) :
  bytes_at 8 4 (ThisAdjustment.VirtualAdjustment.Microsoft a b c) =
  vec_to_list (le_bytes 4 c).
Proof.
  etrans; [exact (bytes_at_vapp_r 4 4 (le_bytes 4 a) _)|].
  etrans; [exact (bytes_at_vapp_r 0 4 (le_bytes 4 b) _)|].
  exact (bytes_at_vapp_l (le_bytes 4 c) _).
Qed.

(** A value stored into a member of the union of [ReturnAdjustment] is
    read back unchanged, for every value of the member's type: the 64-bit
    signed offset of the Itanium shape, and the two 32-bit unsigned
    members of the Microsoft shape. *)
Theorem Return_union_read_after_write (v a b : Z) :
  - 2 ^ 63 ≤ v < 2 ^ 63 → 0 ≤ a < 2 ^ 32 → 0 ≤ b < 2 ^ 32 →
  ReturnMembers.VBaseOffsetOffset
    (ReturnAdjustment.VirtualAdjustment.Itanium v) = v ∧
  ReturnMembers.VBPtrOffset
    (ReturnAdjustment.VirtualAdjustment.Microsoft a b) = a ∧
  ReturnMembers.VBIndex
    (ReturnAdjustment.VirtualAdjustment.Microsoft a b) = b.
Proof.
  intros Hv Ha Hb.
  unfold ReturnMembers.VBaseOffsetOffset, ReturnMembers.VBPtrOffset,
    ReturnMembers.VBIndex.
  rewrite Return_Itanium_bytes, Return_Microsoft_bytes_0,
    Return_Microsoft_bytes_4, !load_le_bytes.
  change (256 ^ Z.of_nat 8) with (2 ^ 64).
  change (256 ^ Z.of_nat 4) with (2 ^ 32).
  split_and!; [by apply to_signed_mod | by apply Z.mod_small..].
Qed.

Lemma Return_union_read_after_write_witness :
  ReturnMembers.VBaseOffsetOffset
    (ReturnAdjustment.VirtualAdjustment.Itanium (-24)) = -24 ∧
  ReturnMembers.VBPtrOffset
    (ReturnAdjustment.VirtualAdjustment.Microsoft 4 2) = 4 ∧
  ReturnMembers.VBIndex
    (ReturnAdjustment.VirtualAdjustment.Microsoft 4 2) = 2.
Proof.
  apply (Return_union_read_after_write (-24) 4 2); lia.
Defined.

(** A value stored into a member of the union of [ThisAdjustment] is read
    back unchanged: the signed offset and the pointer of the Itanium
    shape, and the three 32-bit signed members of the Microsoft shape. *)
Theorem This_union_read_after_write (v p a b c : Z) :
  - 2 ^ 63 ≤ v < 2 ^ 63 → 0 ≤ p < 2 ^ 64 →
  - 2 ^ 31 ≤ a < 2 ^ 31 → - 2 ^ 31 ≤ b < 2 ^ 31 → - 2 ^ 31 ≤ c < 2 ^ 31 →
  ThisMembers.VCallOffsetOffset
    (ThisAdjustment.VirtualAdjustment.Itanium v p) = v ∧
  ThisMembers.VirtualBase
    (ThisAdjustment.VirtualAdjustment.Itanium v p) = p ∧
  ThisMembers.VtordispOffset
    (ThisAdjustment.VirtualAdjustment.Microsoft a b c) = a ∧
  ThisMembers.VBPtrOffset
    (ThisAdjustment.VirtualAdjustment.Microsoft a b c) = b ∧
  ThisMembers.VBOffsetOffset
    (ThisAdjustment.VirtualAdjustment.Microsoft a b c) = c.
Proof.
  intros Hv Hp Ha Hb Hc.
  unfold ThisMembers.VCallOffsetOffset, ThisMembers.VirtualBase,
    ThisMembers.VtordispOffset, ThisMembers.VBPtrOffset,
    ThisMembers.VBOffsetOffset.
  rewrite This_Itanium_bytes_0, This_Itanium_bytes_8, This_Microsoft_bytes_0,
    This_Microsoft_bytes_4, This_Microsoft_bytes_8, !load_le_bytes.
  change (256 ^ Z.of_nat 8) with (2 ^ 64).
  change (256 ^ Z.of_nat 4) with (2 ^ 32).
  split_and!;
    [by apply to_signed_mod | by apply Z.mod_small | by apply to_signed_mod..].
Qed.

Lemma This_union_read_after_write_witness :
  ThisMembers.VCallOffsetOffset
    (ThisAdjustment.VirtualAdjustment.Itanium (-32) 4096) = -32 ∧
  ThisMembers.VirtualBase
    (ThisAdjustment.VirtualAdjustment.Itanium (-32) 4096) = 4096 ∧
  ThisMembers.VtordispOffset
    (ThisAdjustment.VirtualAdjustment.Microsoft (-4) 8 12) = -4 ∧
  ThisMembers.VBPtrOffset
    (ThisAdjustment.VirtualAdjustment.Microsoft (-4) 8 12) = 8 ∧
  ThisMembers.VBOffsetOffset
    (ThisAdjustment.VirtualAdjustment.Microsoft (-4) 8 12) = 12.
Proof.
  apply (This_union_read_after_write (-32) 4096 (-4) 8 12); lia.
Defined.

(** [Equals] on the union of [ReturnAdjustment] is equality of the members
    of either shape, on any storage; so a union is empty exactly when its
    Itanium offset is 0, and exactly when both Microsoft members are 0: a
    virtual adjustment whose members are all 0 is taken for no virtual
    adjustment. *)
Theorem Return_union_Equals_members
    (u1 u2 : ReturnAdjustment.VirtualAdjustment.t) :
  (ReturnAdjustment.VirtualAdjustment.Equals u1 u2 = true ↔
   ReturnMembers.VBaseOffsetOffset u1 = ReturnMembers.VBaseOffsetOffset u2) ∧
  (ReturnAdjustment.VirtualAdjustment.Equals u1 u2 = true ↔
   ReturnMembers.VBPtrOffset u1 = ReturnMembers.VBPtrOffset u2 ∧
   ReturnMembers.VBIndex u1 = ReturnMembers.VBIndex u2) ∧
  (ReturnAdjustment.VirtualAdjustment.isEmpty u1 = true ↔
   ReturnMembers.VBaseOffsetOffset u1 = 0) ∧
  (ReturnAdjustment.VirtualAdjustment.isEmpty u1 = true ↔
   ReturnMembers.VBPtrOffset u1 = 0 ∧ ReturnMembers.VBIndex u1 = 0).
Proof.
  split_and!.
  - apply Return_Equals_Itanium.
  - apply Return_Equals_Microsoft.
  - unfold ReturnAdjustment.VirtualAdjustment.isEmpty.
    apply Return_Equals_Itanium.
  - unfold ReturnAdjustment.VirtualAdjustment.isEmpty.
    apply Return_Equals_Microsoft.
Qed.

(** [Equals] on the union of [ThisAdjustment] is equality of the two
    members of the Itanium shape, on any storage, and the union is empty
    exactly when the call offset is 0 and the virtual base is null.  The
    three members of the Microsoft shape do not cover the storage: unions
    that agree on them can still differ. *)
Theorem This_union_Equals_members
    (u1 u2 : ThisAdjustment.VirtualAdjustment.t) :
  (ThisAdjustment.VirtualAdjustment.Equals u1 u2 = true ↔
   ThisMembers.VCallOffsetOffset u1 = ThisMembers.VCallOffsetOffset u2 ∧
   ThisMembers.VirtualBase u1 = ThisMembers.VirtualBase u2) ∧
  (ThisAdjustment.VirtualAdjustment.isEmpty u1 = true ↔
   ThisMembers.VCallOffsetOffset u1 = 0 ∧ ThisMembers.VirtualBase u1 = NULL) ∧
  (∃ w1 w2 : ThisAdjustment.VirtualAdjustment.t,
     ThisMembers.VtordispOffset w1 = ThisMembers.VtordispOffset w2 ∧
     ThisMembers.VBPtrOffset w1 = ThisMembers.VBPtrOffset w2 ∧
     ThisMembers.VBOffsetOffset w1 = ThisMembers.VBOffsetOffset w2 ∧
     ThisAdjustment.VirtualAdjustment.Equals w1 w2 = false).
Proof.
  split_and!.
  - apply This_Equals_Itanium.
  - unfold ThisAdjustment.VirtualAdjustment.isEmpty.
    apply This_Equals_Itanium.
  - exists (ThisAdjustment.VirtualAdjustment.Itanium 0 (2 ^ 32)),
      ThisAdjustment.VirtualAdjustment.ctor.
    by vm_compute.
Qed.

(** ** CheerpTargetInfo::getTargetDefines *)

Ltac macro_membership :=
  rewrite ?elem_of_cons, ?elem_of_nil;
  intuition (try discriminate; try congruence).

(** Whatever the language options are, [getTargetDefines] keeps the macros
    already in the builder and appends its own without repeating one:
    [__CHEERP__] first and [__LITTLE_ENDIAN__] last; [__ASMJS__] exactly in
    the asm.js, wast and wasm modes; [__WASM__] exactly in the wast and
    wasm modes, hence never without [__ASMJS__]; [_GNU_SOURCE] exactly for
    C++. *)
Theorem getTargetDefines_macros {CheerpModeTy : Type}
    `{EqDecision CheerpModeTy}
    (CHEERP_MODE_AsmJS CHEERP_MODE_Wast CHEERP_MODE_Wasm : CheerpModeTy)
    (Opts : CheerpTargetInfo.LangOptions)
    (Builder : CheerpTargetInfo.MacroBuilder) :
  ∃ defined : list string,
    CheerpTargetInfo.getTargetDefines
      CHEERP_MODE_AsmJS CHEERP_MODE_Wast CHEERP_MODE_Wasm Opts Builder
    = Builder ++ defined ∧
    head defined = Some "__CHEERP__" ∧
    last defined = Some "__LITTLE_ENDIAN__" ∧
    NoDup defined ∧
    ("__ASMJS__" ∈ defined ↔
       CheerpTargetInfo.getCheerpMode Opts = CHEERP_MODE_AsmJS ∨
       CheerpTargetInfo.getCheerpMode Opts = CHEERP_MODE_Wast ∨
       CheerpTargetInfo.getCheerpMode Opts = CHEERP_MODE_Wasm) ∧
    ("__WASM__" ∈ defined ↔
       CheerpTargetInfo.getCheerpMode Opts = CHEERP_MODE_Wast ∨
       CheerpTargetInfo.getCheerpMode Opts = CHEERP_MODE_Wasm) ∧
    ("__WASM__" ∈ defined → "__ASMJS__" ∈ defined) ∧
    ("_GNU_SOURCE" ∈ defined ↔ CheerpTargetInfo.CPlusPlus Opts = true).
Proof.
  unfold CheerpTargetInfo.getTargetDefines, CheerpTargetInfo.defineMacro.
  destruct (bool_decide_reflect
              (CheerpTargetInfo.getCheerpMode Opts = CHEERP_MODE_AsmJS)),
    (bool_decide_reflect
       (CheerpTargetInfo.getCheerpMode Opts = CHEERP_MODE_Wast)),
    (bool_decide_reflect
       (CheerpTargetInfo.getCheerpMode Opts = CHEERP_MODE_Wasm)),
    (CheerpTargetInfo.CPlusPlus Opts); simpl;
    rewrite <- ?app_assoc; simpl;
    (eexists; split; [reflexivity|]);
    (split; [reflexivity|]); (split; [reflexivity|]);
    (split; [repeat (apply NoDup_cons_2; [macro_membership|]);
             apply NoDup_nil_2|]);
    split_and!; macro_membership.
Qed.

Example getTargetDefines_wasm_cxx :
  CheerpTargetInfo.getTargetDefines 1%nat 2%nat 3%nat
    {| CheerpTargetInfo.getCheerpMode := 3%nat;
       CheerpTargetInfo.CPlusPlus := true |} ["__clang__"] =
  ["__clang__"; "__CHEERP__"; "__ASMJS__"; "__WASM__"; "_GNU_SOURCE";
   "__LITTLE_ENDIAN__"].
Proof. reflexivity. Qed.

Example getTargetDefines_genericjs_c :
  CheerpTargetInfo.getTargetDefines 1%nat 2%nat 3%nat
    {| CheerpTargetInfo.getCheerpMode := 0%nat;
       CheerpTargetInfo.CPlusPlus := false |} [] =
  ["__CHEERP__"; "__LITTLE_ENDIAN__"].
Proof. reflexivity. Qed.

(** ** Byte-addressable targets *)

(** When the endpoints are null on both sides, as the constructor leaves
    them for a byte-addressable target, [operator==] of [ReturnAdjustment]
    is the equivalence of [operator<], and [operator!=] holds exactly when
    one value is below the other. *)
Theorem ReturnAdjustment_byte_addressable (x y : ReturnAdjustment.t) :
  ReturnAdjustment.AdjustmentSource x = NULL →
  ReturnAdjustment.AdjustmentTarget x = NULL →
  ReturnAdjustment.AdjustmentSource y = NULL →
  ReturnAdjustment.AdjustmentTarget y = NULL →
  (ReturnAdjustment.eq x y = true ↔ incomparable ReturnAdjustment.lt x y) ∧
  ReturnAdjustment.ne x y = ReturnAdjustment.lt x y || ReturnAdjustment.lt y x.
Proof.
  intros Hsx Htx Hsy Hty. split.
  - rewrite Return_eq_iff, Return_incomparable_iff, Hsx, Htx, Hsy, Hty. tauto.
  - unfold ReturnAdjustment.ne. apply eq_true_iff_eq.
    rewrite negb_true_iff, <- not_true_iff_false, orb_true_iff.
    rewrite Return_eq_iff, Hsx, Htx, Hsy, Hty.
    pose proof (Return_incomparable_iff x y) as Hinc.
    unfold incomparable in Hinc.
    destruct (ReturnAdjustment.lt x y), (ReturnAdjustment.lt y x);
      intuition congruence.
Qed.

Lemma ReturnAdjustment_byte_addressable_witness :
  let x := ReturnAdjustment.ctor true 1 3 in
  let y := ReturnAdjustment.ctor true 2 4 in
  ReturnAdjustment.eq x y = true ∧ incomparable ReturnAdjustment.lt x y.
Proof.
  intros x y.
  destruct (ReturnAdjustment_byte_addressable x y
              eq_refl eq_refl eq_refl eq_refl) as [Heq _].
  split; [reflexivity|]. apply Heq. reflexivity.
Defined.

(** ** [Less] and the numeric order of the members *)

Lemma memcmp_bytes_low_byte (v w : Z) (r1 r2 : list byte) :
  v mod 256 < w mod 256 →
  memcmp_bytes (byte_of_Z v :: r1) (byte_of_Z w :: r2) < 0.
Proof.
  intros H. cbn [memcmp_bytes]. rewrite !uchar_byte_of_Z.
  destruct (Z.eqb_spec (v mod 256) (w mod 256)); lia.
Qed.

(** With the members stored least significant byte first, [Less] is
    decided by the lowest byte in which the first members differ, not by
    their numeric order: whenever the low byte of [v] is below the low
    byte of [w], the union holding [v] is below the union holding [w],
    however large [v] is. *)
Theorem Less_low_byte_first (v w : Z) :
  v mod 256 < w mod 256 →
  ReturnAdjustment.VirtualAdjustment.Less
    (ReturnAdjustment.VirtualAdjustment.Itanium v)
    (ReturnAdjustment.VirtualAdjustment.Itanium w) = true ∧
  (∀ i j : Z,
     ReturnAdjustment.VirtualAdjustment.Less
       (ReturnAdjustment.VirtualAdjustment.Microsoft v i)
       (ReturnAdjustment.VirtualAdjustment.Microsoft w j) = true) ∧
  (∀ p q : ptr,
     ThisAdjustment.VirtualAdjustment.Less
       (ThisAdjustment.VirtualAdjustment.Itanium v p)
       (ThisAdjustment.VirtualAdjustment.Itanium w q) = true).
Proof.
  intros H. split_and!; intros;
    apply Z.ltb_lt; unfold memcmp;
    unfold ReturnAdjustment.VirtualAdjustment.Itanium,
      ReturnAdjustment.VirtualAdjustment.Microsoft,
      ThisAdjustment.VirtualAdjustment.Itanium;
    cbn -[byte_of_Z Z.div Z.modulo memcmp_bytes];
    by apply memcmp_bytes_low_byte.
Qed.

Lemma Less_low_byte_first_witness :
  1 < 256 ∧
  ReturnAdjustment.VirtualAdjustment.Less
    (ReturnAdjustment.VirtualAdjustment.Itanium 256)
    (ReturnAdjustment.VirtualAdjustment.Itanium 1) = true.
Proof.
  split; [lia|].
  exact (proj1 (Less_low_byte_first 256 1 ltac:(reflexivity))).
Defined.
